(** * KoaX: request runtime, context pool, dispatch engine and log transports

    A shallow embedding of the TypeScript sources of koax-implementation
    (src/response.ts, src/context.ts, src/transports.ts, src/logger.ts and
    src/application.ts) together with the properties of the design document
    that can be settled on them.

    Conventions.
    - A JavaScript object that is mutated in place is a record that is passed
      through the functions that mutate it; objects whose identity matters
      (pooled contexts) live in a store indexed by object identity.
    - [undefined] is [None]; a property that no code ever assigns reads as
      [None].
    - A call that may throw returns a [Completion]; [await] of a promise that
      rejects is a throw at the point of the [await].
    - A number is an integer that JavaScript represents exactly; a status code
      is one that node keeps as it is (a 32-bit integer). A text is the
      sequence of its UTF-16 code units, each below 256. *)

From stdpp Require Import base option list gmap strings pretty.
From Stdlib Require Import ZArith Lia Ascii.

Local Open Scope string_scope.
Local Open Scope list_scope.
Local Open Scope Z_scope.

(** ** JavaScript values used by the runtime *)

Module Js.

(** The fields of a thrown object that [handleError] and [Logger.error] read.
    [isError] is the outcome of [instanceof Error]. *)
Record ErrorObj : Type := mkErrorObj {
  isError : bool;
  name : string;
  message : string;
  status : option Z;
  statusCode : option Z;
  expose : bool
}.

(** A thrown value: [throw undefined] / [throw null] / a promise rejected
    without a reason, or an object. *)
Inductive Thrown : Type :=
| Nullish : Thrown
| Obj : ErrorObj -> Thrown.

(** [new Error(msg)] *)
Definition newError (msg : string) : Thrown :=
  Obj (mkErrorObj true "Error" msg None None false).

(** The error the engine raises when a property of [undefined] or [null] is
    read or called. *)
Definition typeError (msg : string) : Thrown :=
  Obj (mkErrorObj true "TypeError" msg None None false).

(** [RangeError], as node raises it for a status code it refuses. *)
Definition rangeError (msg : string) : Thrown :=
  Obj (mkErrorObj true "RangeError" msg None None false).

(** How a call ends: it returns, it throws synchronously, or it returns a
    promise that rejects. *)
Inductive Completion : Type :=
| Returned : Completion
| Threw : Thrown -> Completion
| Rejected : Thrown -> Completion.

(** What the caller of an [await]ed call observes. *)
Inductive Outcome : Type :=
| Ok : Outcome
| Fail : Thrown -> Outcome.

Definition await (c : Completion) : Outcome :=
  match c with
  | Returned => Ok
  | Threw e => Fail e
  | Rejected e => Fail e
  end.

(** Truthiness of a number-valued property: [undefined], [0] are falsy. *)
Definition truthy (v : option Z) : bool :=
  match v with
  | Some n => negb (n =? 0)
  | None => false
  end.

(** [a || b] on number-valued properties. *)
Definition or_else (a b : option Z) : option Z :=
  if truthy a then a else b.

#[global] Instance ErrorObj_eq_dec : EqDecision ErrorObj.
Proof. solve_decision. Defined.

#[global] Instance Thrown_eq_dec : EqDecision Thrown.
Proof. solve_decision. Defined.

(** *** Texts *)

(** The code unit of a character. *)
Definition codeUnit (c : ascii) : Z := Z.of_N (N_of_ascii c).

Fixpoint allUnits (ok : Z -> bool) (s : string) : bool :=
  match s with
  | EmptyString => true
  | String c rest => ok (codeUnit c) && allUnits ok rest
  end.

(** [s.toLowerCase()]: the letters A to Z and the capital letters of the
    Latin-1 block move 32 places up. *)
Definition lowerUnit (c : ascii) : ascii :=
  let n := codeUnit c in
  if ((65 <=? n) && (n <=? 90)) || ((192 <=? n) && (n <=? 222) && negb (n =? 215))
  then ascii_of_N (Z.to_N (n + 32))
  else c.

Fixpoint toLowerCase (s : string) : string :=
  match s with
  | EmptyString => EmptyString
  | String c rest => String (lowerUnit c) (toLowerCase rest)
  end.

(** [Buffer.from(s).length]: the length of the UTF-8 encoding, one byte for a
    code unit below 128 and two for the others. *)
Fixpoint utf8Length (s : string) : nat :=
  match s with
  | EmptyString => 0%nat
  | String c rest => (if codeUnit c <? 128 then 1%nat else 2%nat) + utf8Length rest
  end.

Definition hexDigit (n : Z) : ascii :=
  ascii_of_N (Z.to_N (if n <? 10 then 48 + n else 87 + n)).

(** One code unit inside a JSON string, as [JSON.stringify] writes it. *)
Definition quoteUnit (c : ascii) : string :=
  let n := codeUnit c in
  if n =? 8 then "\b"
  else if n =? 9 then "\t"
  else if n =? 10 then "\n"
  else if n =? 12 then "\f"
  else if n =? 13 then "\r"
  else if n =? 34 then String "\"%char (String c "")
  else if n =? 92 then "\\"
  else if n <? 32
       then "\u00" +:+ String (hexDigit (n / 16)) (String (hexDigit (n mod 16)) "")
       else String c "".

Fixpoint quoteUnits (s : string) : string :=
  match s with
  | EmptyString => EmptyString
  | String c rest => quoteUnit c +:+ quoteUnits rest
  end.

Definition dquote : string := String "034"%char "".

(** [JSON.stringify(s)] for a text [s]. *)
Definition quoteJSON (s : string) : string :=
  dquote +:+ quoteUnits s +:+ dquote.

End Js.

Import Js.

(** ** response.ts: the response wrapper over the raw [ServerResponse] *)

Module Response.

(** A response body ([any] in the source), by the cases [send] tells apart.
    For a value that is neither nullish, a buffer nor a string, the field is
    the text [JSON.stringify] returns, or [None] when there is none to send:
    [JSON.stringify] throws (a cyclic object, a BigInt), or it returns
    [undefined] (a function) and [Buffer.from] throws. *)
Inductive Body : Type :=
| BUndefined : Body
| BNull : Body
| BBuffer : string -> Body
| BString : string -> Body
| BObject : option string -> Body.

(** [val != null] *)
Definition not_nullish (b : Body) : bool :=
  match b with
  | BUndefined | BNull => false
  | _ => true
  end.

(** The part of node's [ServerResponse] the runtime touches. [headers] is
    keyed by the lower-case header name, as node keeps it. [statusMessage] is
    what the program last assigned to it. [ended] lists the payload of every
    [end] call that went through, oldest first; [finishListeners] counts the
    listeners registered with [res.on('finish', ...)]. *)
Record ServerResponse : Type := mkServerResponse {
  statusCode : Z;
  statusMessage : option string;
  headers : gmap string string;
  headersSent : bool;
  writableEnded : bool;
  ended : list (option string);
  finishListeners : nat
}.

(** A response nobody has written to yet. *)
Definition freshRaw : ServerResponse :=
  mkServerResponse 200 None ∅ false false [] 0.

(** A header name node accepts: a non-empty HTTP token. *)
Definition tokenUnit (n : Z) : bool :=
  ((48 <=? n) && (n <=? 57)) || ((65 <=? n) && (n <=? 90)) ||
  ((94 <=? n) && (n <=? 122)) ||
  bool_decide (n ∈ [33; 35; 36; 37; 38; 39; 42; 43; 45; 46; 124; 126]).

Definition validHeaderName (field : string) : bool :=
  negb (bool_decide (field = EmptyString)) && allUnits tokenUnit field.

(** A header value, or a status message, node accepts: no control character
    but the tab. *)
Definition valueUnit (n : Z) : bool :=
  (n =? 9) || ((32 <=? n) && negb (n =? 127)).

Definition validHeaderValue (val : string) : bool := allUnits valueUnit val.

(** A status code node accepts when it writes the head. *)
Definition validStatus (code : Z) : bool := (100 <=? code) && (code <=? 999).

(** The status message, if one was assigned, is one node accepts. *)
Definition messageOk (r : ServerResponse) : bool :=
  match statusMessage r with
  | Some msg => validHeaderValue msg
  | None => true
  end.

Definition raw_setStatusCode (code : Z) (r : ServerResponse) : ServerResponse :=
  mkServerResponse code (statusMessage r) (headers r) (headersSent r)
    (writableEnded r) (ended r) (finishListeners r).

Definition raw_setStatusMessage (msg : string) (r : ServerResponse) : ServerResponse :=
  mkServerResponse (statusCode r) (Some msg) (headers r) (headersSent r)
    (writableEnded r) (ended r) (finishListeners r).

(** [res.setHeader(field, val)]: node refuses it once the headers are sent,
    for a name that is no token and for a value with a control character;
    otherwise the value is kept under the lower-case name. *)
Definition raw_setHeader (field val : string) (r : ServerResponse)
  : Outcome * ServerResponse :=
  if headersSent r
  then (Fail (newError "Cannot set headers after they are sent to the client"), r)
  else if negb (validHeaderName field)
  then (Fail (typeError "Header name must be a valid HTTP token"), r)
  else if negb (validHeaderValue val)
  then (Fail (typeError "Invalid character in header content"), r)
  else (Ok, mkServerResponse (statusCode r) (statusMessage r)
              (<[toLowerCase field:=val]> (headers r))
              (headersSent r) (writableEnded r) (ended r) (finishListeners r)).

(** [res.getHeader(field)] *)
Definition raw_getHeader (field : string) (r : ServerResponse) : option string :=
  headers r !! toLowerCase field.

(** What stops node from writing the head: a status code outside 100..999,
    or a status message with a control character. *)
Definition headError (code : Z) (r : ServerResponse) : option Thrown :=
  if negb (validStatus code)
  then Some (rangeError ("Invalid status code: " +:+ pretty code))
  else if negb (messageOk r)
  then Some (typeError "Invalid character in statusMessage")
  else None.

(** The raw response after an [end] call that went through. *)
Definition finished (data : option string) (r : ServerResponse) : ServerResponse :=
  mkServerResponse (statusCode r) (statusMessage r) (headers r) true true
    (ended r ++ [data]) (finishListeners r).

(** [res.end(data)] on a response that is not finished: unless the headers
    are out already, node first writes the head with the current status code;
    then the data goes out and the response is finished. *)
Definition raw_end (data : option string) (r : ServerResponse)
  : Outcome * ServerResponse :=
  match (if headersSent r then None else headError (statusCode r) r) with
  | Some err => (Fail err, r)
  | None => (Ok, finished data r)
  end.


(** [res.on('finish', listener)] *)
Definition raw_onFinish (r : ServerResponse) : ServerResponse :=
  mkServerResponse (statusCode r) (statusMessage r) (headers r) (headersSent r)
    (writableEnded r) (ended r) (S (finishListeners r)).

(** The private fields of [KoaXResponse]; its [res] field is the raw response
    the wrapper is paired with. *)
Record KoaXResponse : Type := mkKoaXResponse {
  _body : Body;
  _status : Z;
  _message : option string;
  _explicitStatus : bool
}.

(** [new KoaXResponse(res)]: the field initialisers. *)
Definition construct : KoaXResponse :=
  mkKoaXResponse BUndefined 404 None false.

(** [reset(res)] *)
Definition reset (w : KoaXResponse) : KoaXResponse :=
  mkKoaXResponse BUndefined 404 None false.

(** [get status()] *)
Definition get_status (w : KoaXResponse) : Z := _status w.

(** [set status(code)] *)
Definition set_status (code : Z) (wr : KoaXResponse * ServerResponse)
  : KoaXResponse * ServerResponse :=
  let (w, r) := wr in
  (mkKoaXResponse (_body w) code (_message w) true, raw_setStatusCode code r).

(** [get body()] *)
Definition get_body (w : KoaXResponse) : Body := _body w.

(** [set body(val)] *)
Definition set_body (val : Body) (wr : KoaXResponse * ServerResponse)
  : KoaXResponse * ServerResponse :=
  let (w, r) := wr in
  let w1 := mkKoaXResponse val (_status w) (_message w) (_explicitStatus w) in
  if negb (_explicitStatus w1) && not_nullish val
  then set_status 200 (w1, r)
  else (w1, r).

(** [set(field, val)], for a value that is one text. *)
Definition set (field val : string) (r : ServerResponse) : Outcome * ServerResponse :=
  if headersSent r then (Ok, r) else raw_setHeader field val r.

(** A step on the raw response after one that did not throw. *)
Definition andThenRaw (m : Outcome * ServerResponse)
    (k : ServerResponse -> Outcome * ServerResponse) : Outcome * ServerResponse :=
  match m with
  | (Ok, r1) => k r1
  | (Fail err, r1) => (Fail err, r1)
  end.

(** [String(Buffer.from(s).length)] for a text. *)
Definition byteLength (s : string) : string := pretty (utf8Length s).

(** [String(body.length)] for a buffer, given by its bytes. *)
Definition bufferLength (b : string) : string := pretty (String.length b).

(** [send()]. The result tells whether the call returned or threw: it throws
    when [JSON.stringify] does and when node refuses to write the head. *)
Definition send (w : KoaXResponse) (r : ServerResponse) : Outcome * ServerResponse :=
  if writableEnded r || headersSent r then (Ok, r)
  else
    match _body w with
    | BUndefined | BNull => raw_end None r
    | BBuffer b =>
        andThenRaw (set "Content-Length" (bufferLength b) r) (raw_end (Some b))
    | BString s =>
        andThenRaw (set "Content-Length" (byteLength s) r) (raw_end (Some s))
    | BObject None =>
        (Fail (typeError "Converting circular structure to JSON"), r)
    | BObject (Some jsonBody) =>
        andThenRaw (set "Content-Type" "application/json; charset=utf-8" r)
          (fun r1 =>
             andThenRaw (set "Content-Length" (byteLength jsonBody) r1)
               (raw_end (Some jsonBody)))
    end.

(** *** What [send] amounts to, used in the statements below *)

(** The raw response with one more header. *)
Definition withHeader (field val : string) (r : ServerResponse) : ServerResponse :=
  mkServerResponse (statusCode r) (statusMessage r)
    (<[toLowerCase field:=val]> (headers r))
    (headersSent r) (writableEnded r) (ended r) (finishListeners r).

(** The raw response with the headers [send] sets for the body. *)
Definition sendHeaders (w : KoaXResponse) (r : ServerResponse) : ServerResponse :=
  match _body w with
  | BBuffer b => withHeader "Content-Length" (bufferLength b) r
  | BString s => withHeader "Content-Length" (byteLength s) r
  | BObject (Some json) =>
      withHeader "Content-Length" (byteLength json)
        (withHeader "Content-Type" "application/json; charset=utf-8" r)
  | _ => r
  end.

(** The data [send] hands to [res.end] for the body. *)
Definition payload (w : KoaXResponse) : option string :=
  match _body w with
  | BBuffer b => Some b
  | BString s => Some s
  | BObject json => json
  | _ => None
  end.

(** [JSON.stringify] does not throw on the body. *)
Definition serialises (w : KoaXResponse) : bool :=
  match _body w with
  | BObject None => false
  | _ => true
  end.

End Response.

(** ** transports.ts: log entries and the transport tree *)

Module Transports.

(** A property value of a log entry ([any] in the source): a number, a
    text, a boolean, a BigInt, or the object [{ type, message, stack }] that
    [Logger.error] builds for an [Error]. *)
Inductive Value : Type :=
| VNum (n : Z)
| VText (s : string)
| VBool (b : bool)
| VBigInt (n : Z)
| VErrorInfo (type message : string).

#[global] Instance Value_eq_dec : EqDecision Value.
Proof. solve_decision. Defined.

(** A log entry: an object, by its own properties. *)
Definition LogEntry : Type := gmap string Value.

Definition level (e : LogEntry) : option Value := e !! "level".
Definition time (e : LogEntry) : option Value := e !! "time".
Definition name (e : LogEntry) : option Value := e !! "name".
Definition msg (e : LogEntry) : option Value := e !! "msg".

(** One call received by a user-written transport or function. *)
Inductive Call : Type :=
| CWrite : string -> LogEntry -> Call
| CFlush : string -> Call
| CClose : string -> Call.

(** The process the logging code runs in: the two standard streams (the
    entries written to each), [console.error], the calls that reached
    user-written sinks, the rejections nobody handles, the logger's cached
    clock, and two conversions of the JavaScript engine: whether a text, read
    as a number, is at least 50, and whether a text parses as a date. *)
Record Io : Type := mkIo {
  stdout : list LogEntry;
  stderr : list LogEntry;
  consoleError : list (string * Thrown);
  calls : list Call;
  unhandled : list Thrown;
  cachedTime : Z;
  textAtLeast50 : string -> bool;
  textIsDate : string -> bool
}.

(** A process that has written nothing. No example below has a text where
    a number or a date is expected, so its conversions are never consulted. *)
Definition emptyIo : Io := mkIo [] [] [] [] [] 0 (fun _ => false) (fun _ => false).

Definition io_stdout (e : LogEntry) (io : Io) : Io :=
  mkIo (stdout io ++ [e]) (stderr io) (consoleError io) (calls io) (unhandled io)
    (cachedTime io) (textAtLeast50 io) (textIsDate io).

Definition io_stderr (e : LogEntry) (io : Io) : Io :=
  mkIo (stdout io) (stderr io ++ [e]) (consoleError io) (calls io) (unhandled io)
    (cachedTime io) (textAtLeast50 io) (textIsDate io).

(** [console.error(label, err)] *)
Definition io_consoleError (label : string) (err : Thrown) (io : Io) : Io :=
  mkIo (stdout io) (stderr io) (consoleError io ++ [(label, err)]) (calls io)
    (unhandled io) (cachedTime io) (textAtLeast50 io) (textIsDate io).

Definition io_call (c : Call) (io : Io) : Io :=
  mkIo (stdout io) (stderr io) (consoleError io) (calls io ++ [c]) (unhandled io)
    (cachedTime io) (textAtLeast50 io) (textIsDate io).

(** A promise rejects and no handler is attached to it. *)
Definition io_unhandled (err : Thrown) (io : Io) : Io :=
  mkIo (stdout io) (stderr io) (consoleError io) (calls io) (unhandled io ++ [err])
    (cachedTime io) (textAtLeast50 io) (textIsDate io).

(** *** ConsoleTransport *)

(** [JSON.stringify] accepts the value: it throws on a BigInt. *)
Definition serialisable (v : Value) : bool :=
  match v with
  | VBigInt _ => false
  | _ => true
  end.

(** [JSON.stringify] accepts the object. *)
Definition stringifies (e : gmap string Value) : bool :=
  forallb (fun kv => serialisable (snd kv)) (map_to_list e).

(** [value >= 50], for the value of a property that may be missing. *)
Definition atLeast50 (io : Io) (v : option Value) : bool :=
  match v with
  | Some (VNum n) => 50 <=? n
  | Some (VBigInt n) => 50 <=? n
  | Some (VText s) => textAtLeast50 io s
  | Some (VBool _) => false
  | Some (VErrorInfo _ _) => false
  | None => false
  end.

(** What [new Date(value).toISOString()] throws, if it throws: a [RangeError]
    for a value that is no valid time, a [TypeError] for a BigInt. *)
Definition timeError (io : Io) (v : option Value) : option Thrown :=
  let invalid := Some (rangeError "Invalid time value") in
  match v with
  | Some (VNum n) =>
      if (-8640000000000000 <=? n) && (n <=? 8640000000000000) then None else invalid
  | Some (VText s) => if textIsDate io s then None else invalid
  | Some (VBool _) => None
  | Some (VBigInt _) => Some (typeError "Cannot convert a BigInt value to a number")
  | Some (VErrorInfo _ _) => if textIsDate io "[object Object]" then None else invalid
  | None => invalid
  end.

(** The properties [formatPretty] prints as extra fields: it copies every
    other property with [extraFields[key] = value], which for the key
    [__proto__] reaches the setter of [Object.prototype] and adds none. *)
Definition extraFields (e : LogEntry) : gmap string Value :=
  filter (fun kv => fst kv ∉ ["level"; "time"; "msg"; "name"; "__proto__"]) e.

Definition cannotSerialise : Thrown :=
  typeError "Do not know how to serialize a BigInt".

(** What the formatting of the entry throws, if it throws:
    [this.prettyPrint ? this.formatPretty(entry) : JSON.stringify(entry)]. *)
Definition formatError (prettyPrint : bool) (entry : LogEntry) (io : Io)
  : option Thrown :=
  if prettyPrint
  then match timeError io (time entry) with
       | Some err => Some err
       | None => if stringifies (extraFields entry) then None else Some cannotSerialise
       end
  else if stringifies entry then None else Some cannotSerialise.

(** [ConsoleTransport.write(entry)] *)
Definition console_write (prettyPrint : bool) (entry : LogEntry) (io : Io)
  : Completion * Io :=
  match formatError prettyPrint entry io with
  | Some err => (Threw err, io)
  | None =>
      if atLeast50 io (level entry)
      then (Returned, io_stderr entry io)
      else (Returned, io_stdout entry io)
  end.

(** A transport written outside transports.ts: any object with a [write]
    method and, optionally, [flush] and [close]. It is identified by [uname];
    each method is given by how a call to it ends. *)
Record UserTransport : Type := mkUserTransport {
  uname : string;
  uwrite : LogEntry -> Completion;
  uflush : option Completion;
  uclose : option Completion
}.

(** How a call of a filter predicate ends: a truthy value, a falsy value, or
    an exception. *)
Inductive PredResult : Type :=
| PTrue : PredResult
| PFalse : PredResult
| PThrow : Thrown -> PredResult.

(** The implementations of the [Transport] interface. [Function] carries the
    wrapped function (a label identifies it in [calls]); [User] stands for
    every implementation not composed here. *)
#[warnings="-register-all"] Inductive Transport : Type :=
| Console (prettyPrint : bool)
| Multi (transports : list Transport)
| Function (label : string) (fn : LogEntry -> Completion)
| Filter (transport : Transport) (filter : LogEntry -> PredResult)
| User (u : UserTransport).

(** [for (const transport of this.transports) try { transport.write(entry) }
    catch (err) { console.error('Transport write error:', err) }] for a given
    child [write]. A promise the child returns is dropped. *)
Fixpoint multi_write_loop (write : Transport -> LogEntry -> Io -> Completion * Io)
    (ts : list Transport) (entry : LogEntry) (io : Io) : Io :=
  match ts with
  | [] => io
  | t :: rest =>
      let io2 :=
        match write t entry io with
        | (Returned, io1) => io1
        | (Threw err, io1) => io_consoleError "Transport write error:" err io1
        | (Rejected err, io1) => io_unhandled err io1
        end in
      multi_write_loop write rest entry io2
  end.

(** [write(entry)] of each transport class. *)
Fixpoint write (t : Transport) (entry : LogEntry) (io : Io) {struct t} : Completion * Io :=
  match t with
  | Console prettyPrint => console_write prettyPrint entry io
  | Multi ts => (Returned, multi_write_loop write ts entry io)
  | Function label fn =>
      let io1 := io_call (CWrite label entry) io in
      match fn entry with
      | Returned => (Returned, io1)
      | Threw err => (Returned, io_consoleError "Function transport error:" err io1)
      | Rejected err => (Returned, io_consoleError "Function transport error:" err io1)
      end
  | Filter inner pred =>
      match pred entry with
      | PThrow err => (Threw err, io)
      | PFalse => (Returned, io)
      | PTrue =>
          match write inner entry io with
          | (Rejected err, io1) => (Returned, io_unhandled err io1)
          | r => r
          end
      end
  | User u => (uwrite u entry, io_call (CWrite (uname u) entry) io)
  end.

(** [t.flush] is defined. *)
Definition has_flush (t : Transport) : bool :=
  match t with
  | Console _ => false
  | Multi _ => true
  | Function _ _ => false
  | Filter _ _ => true
  | User u => bool_decide (is_Some (uflush u))
  end.

(** [t.close] is defined. *)
Definition has_close (t : Transport) : bool :=
  match t with
  | Console _ => false
  | Multi _ => true
  | Function _ _ => false
  | Filter _ _ => true
  | User u => bool_decide (is_Some (uclose u))
  end.

(** [await Promise.all(ts.filter(t => t.op).map(t => t.op!()))] inside an
    [async] method, for a given child operation [op]: [map] calls the children
    in order; a child that throws ends [map] at once, and the method's promise
    rejects; otherwise the promise rejects with the first child promise that
    rejected, [pending], if any. *)
Fixpoint promise_all_map (has : Transport -> bool)
    (op : Transport -> Io -> Completion * Io)
    (ts : list Transport) (pending : option Thrown) (io : Io) : Completion * Io :=
  match ts with
  | [] =>
      match pending with
      | Some err => (Rejected err, io)
      | None => (Returned, io)
      end
  | t :: rest =>
      if has t then
        match op t io with
        | (Returned, io1) => promise_all_map has op rest pending io1
        | (Threw err, io1) => (Rejected err, io1)
        | (Rejected err, io1) =>
            promise_all_map has op rest
              (match pending with Some p => Some p | None => Some err end) io1
        end
      else promise_all_map has op rest pending io
  end.

(** [t.flush?.()] of each transport class. *)
Fixpoint flush (t : Transport) (io : Io) {struct t} : Completion * Io :=
  match t with
  | Console _ => (Returned, io)
  | Multi ts => promise_all_map has_flush flush ts None io
  | Function _ _ => (Returned, io)
  | Filter inner _ => flush inner io
  | User u =>
      match uflush u with
      | Some c => (c, io_call (CFlush (uname u)) io)
      | None => (Returned, io)
      end
  end.

(** [t.close?.()] of each transport class. *)
Fixpoint close (t : Transport) (io : Io) {struct t} : Completion * Io :=
  match t with
  | Console _ => (Returned, io)
  | Multi ts => promise_all_map has_close close ts None io
  | Function _ _ => (Returned, io)
  | Filter inner _ => close inner io
  | User u =>
      match uclose u with
      | Some c => (c, io_call (CClose (uname u)) io)
      | None => (Returned, io)
      end
  end.

(** The factory object [transports]. *)
Definition multi (ts : list Transport) : Transport := Multi ts.
Definition filter (t : Transport) (pred : LogEntry -> PredResult) : Transport :=
  Filter t pred.
Definition custom (label : string) (fn : LogEntry -> Completion) : Transport :=
  Function label fn.
Definition console (prettyPrint : bool) : Transport := Console prettyPrint.

End Transports.

(** ** logger.ts: the structured logger *)

Module Logger.

Inductive LogLevel : Type := trace | debug | info | warn | error | fatal.

(** [LOG_LEVELS] *)
Definition LOG_LEVELS (l : LogLevel) : Z :=
  match l with
  | trace => 10
  | debug => 20
  | info => 30
  | warn => 40
  | error => 50
  | fatal => 60
  end.

Record Logger : Type := mkLogger {
  level : Z;
  name : option string;
  prettyPrint : bool;
  enabled : bool;
  bindings : gmap string Transports.Value;
  transport : Transports.Transport
}.

(** [createLogger(options)] with every option given. *)
Definition createLogger (lvl : LogLevel) (nm : option string) (pretty en : bool)
    (t : option Transports.Transport) : Logger :=
  mkLogger (LOG_LEVELS lvl) nm pretty en ∅
    (default (Transports.console pretty) t).

(** [child(bindings)]: the same transport, and [{ ...this.bindings,
    ...bindings }], where the new bindings win. *)
Definition child (lg : Logger) (bs : gmap string Transports.Value) : Logger :=
  mkLogger (level lg) (name lg) (prettyPrint lg) (enabled lg)
    (bs ∪ bindings lg) (transport lg).

(** [Object.assign(target, source)]: the properties of the source win. The
    key [__proto__] is not copied: assigning to it reaches the setter of
    [Object.prototype], which leaves the target's properties as they are. *)
Definition assign (target source : gmap string Transports.Value)
  : gmap string Transports.Value :=
  filter (fun kv => fst kv <> "__proto__") source ∪ target.

(** The entry [log] builds: [{ level, time, msg }], the name if it is not
    empty, then the bindings and then the data assigned over it. *)
Definition buildEntry (lg : Logger) (lvl : LogLevel) (msg : string)
    (data : gmap string Transports.Value) (now : Z) : Transports.LogEntry :=
  let entry0 : gmap string Transports.Value :=
    <["level":=Transports.VNum (LOG_LEVELS lvl)]>
      (<["time":=Transports.VNum now]> (<["msg":=Transports.VText msg]> ∅)) in
  let entry1 :=
    match name lg with
    | Some nm =>
        if decide (nm = EmptyString) then entry0
        else <["name":=Transports.VText nm]> entry0
    | None => entry0
    end in
  assign (assign entry1 (bindings lg)) data.

(** The private [log(level, msg, data)], for a message that is a text and
    data that is an object (no data is the empty object). It is not [async]
    and drops what [transport.write] returns: a synchronous throw of the
    transport reaches the caller, a rejected promise reaches nobody. *)
Definition log (lg : Logger) (lvl : LogLevel) (msg : string)
    (data : gmap string Transports.Value) (io : Transports.Io)
  : Outcome * Transports.Io :=
  if negb (enabled lg) then (Ok, io)
  else if LOG_LEVELS lvl <? level lg then (Ok, io)
  else
    let entry := buildEntry lg lvl msg data (Transports.cachedTime io) in
    match Transports.write (transport lg) entry io with
    | (Returned, io1) => (Ok, io1)
    | (Threw err, io1) => (Fail err, io1)
    | (Rejected err, io1) => (Ok, Transports.io_unhandled err io1)
    end.

(** [info(msg, data)] *)
Definition log_info (lg : Logger) (msg : string)
    (data : gmap string Transports.Value)
  : Transports.Io -> Outcome * Transports.Io :=
  log lg info msg data.

(** The own properties of a thrown object that is no [Error], as
    [Object.assign] copies them. *)
Definition ownProps (o : ErrorObj) : gmap string Transports.Value :=
  let props : gmap string Transports.Value :=
    <["name":=Transports.VText (Js.name o)]>
      (<["message":=Transports.VText (Js.message o)]>
         (<["expose":=Transports.VBool (Js.expose o)]> ∅)) in
  let props1 :=
    match Js.status o with
    | Some n => <["status":=Transports.VNum n]> props
    | None => props
    end in
  match Js.statusCode o with
  | Some n => <["statusCode":=Transports.VNum n]> props1
  | None => props1
  end.

(** [error(err, msg)] with a thrown value in first position and a text in
    second: an [Error] instance is unpacked into an [err] field (its stack is
    not kept here); any other value goes to [log] as it is, where an object
    is the data and [null]/[undefined] is no data. *)
Definition log_error (lg : Logger) (err : Thrown) (msg : string)
  : Transports.Io -> Outcome * Transports.Io :=
  match err with
  | Obj o =>
      if isError o
      then log lg error msg
             {[ "err" := Transports.VErrorInfo (Js.name o) (Js.message o) ]}
      else log lg error msg (ownProps o)
  | Nullish => log lg error msg ∅
  end.

End Logger.

(** ** context.ts: the context and its pool *)

Module Context.

(** The caches of [KoaXRequest]; [req] is the identity of the raw request. *)
Record KoaXRequest : Type := mkKoaXRequest {
  rq_req : nat;
  _url : option string;
  _path : option string;
  _query : option (gmap string string)
}.

(** [new KoaXRequest(req)] *)
Definition request_construct (req : nat) : KoaXRequest :=
  mkKoaXRequest req None None None.

(** [KoaXRequest.reset(req)] *)
Definition request_reset (req : nat) (r : KoaXRequest) : KoaXRequest :=
  mkKoaXRequest req None None None.

(** A [Context] object. [app], [req] and [res] are the identities of the
    application and of the raw request and response; the wrapper [response]
    holds the same raw response as [res]. The last three fields are the
    properties the [KoaXContext] interface declares and application.ts reads
    ([requestId], [startTime], [log]); the class declares none of them, so each
    holds what was last assigned to it from outside the class, if anything. *)
Record Context : Type := mkContext {
  app : nat;
  req : nat;
  res : nat;
  request : KoaXRequest;
  response : Response.KoaXResponse;
  state : gmap string string;
  _inUse : option bool;
  requestId : option string;
  startTime : option Z;
  log : option Logger.Logger
}.

(** [reset(app, req, res)] *)
Definition reset (a rq rs : nat) (c : Context) : Context :=
  mkContext a rq rs
    (request_reset rq (request c))
    (Response.reset (response c))
    ∅
    (_inUse c) (requestId c) (startTime c) (log c).

(** [new Context(app, req, res)]: the field initialiser of [state], the two
    wrappers, then [reset]. *)
Definition construct (a rq rs : nat) : Context :=
  reset a rq rs
    (mkContext a rq rs (request_construct rq) Response.construct ∅
       None None None None).

Definition set_inUse (b : bool) (c : Context) : Context :=
  mkContext (app c) (req c) (res c) (request c) (response c) (state c)
    (Some b) (requestId c) (startTime c) (log c).

Definition set_state (st : gmap string string) (c : Context) : Context :=
  mkContext (app c) (req c) (res c) (request c) (response c) st
    (_inUse c) (requestId c) (startTime c) (log c).

Definition set_response (w : Response.KoaXResponse) (c : Context) : Context :=
  mkContext (app c) (req c) (res c) (request c) w (state c)
    (_inUse c) (requestId c) (startTime c) (log c).

Definition set_log (lg : option Logger.Logger) (c : Context) : Context :=
  mkContext (app c) (req c) (res c) (request c) (response c) (state c)
    (_inUse c) (requestId c) (startTime c) lg.

(** [!ctx._inUse] *)
Definition not_inUse (c : Context) : bool :=
  match _inUse c with
  | Some true => false
  | _ => true
  end.

(** The pool. Contexts are shared mutable objects: [heap] maps the identity of
    every [Context] allocated so far to its current fields, and [pool] is the
    free list as identities, the end of the source array first (so [push] is
    cons and [pop] takes the head). *)
Record ContextPool : Type := mkContextPool {
  heap : gmap nat Context;
  pool : list nat;
  maxSize : Z;
  created : Z
}.

(** [new ContextPool(maxSize)] *)
Definition newPool (n : Z) : ContextPool := mkContextPool ∅ [] n 0.

(** An identity no allocated object has. *)
Definition freshId (h : gmap nat Context) : nat := fresh (dom h).

(** [acquire(app, req, res)]: the identity of the context handed out, and the
    pool afterwards. *)
Definition acquire (a rq rs : nat) (p : ContextPool) : nat * ContextPool :=
  match pool p with
  | [] =>
      let id := freshId (heap p) in
      let ctx := set_inUse true (construct a rq rs) in
      (id, mkContextPool (<[id:=ctx]> (heap p)) [] (maxSize p) (created p + 1))
  | id :: rest =>
      (id, mkContextPool (alter (fun c => set_inUse true (reset a rq rs c)) id (heap p))
             rest (maxSize p) (created p))
  end.

(** [release(ctx)] for the context of identity [id]. *)
Definition release (id : nat) (p : ContextPool) : ContextPool :=
  match heap p !! id with
  | None => p
  | Some ctx =>
      if not_inUse ctx then p
      else
        let ctx1 := set_inUse false ctx in
        if Z.of_nat (length (pool p)) <? maxSize p
        then mkContextPool (<[id:=set_state ∅ ctx1]> (heap p)) (id :: pool p)
               (maxSize p) (created p)
        else mkContextPool (<[id:=ctx1]> (heap p)) (pool p) (maxSize p) (created p)
  end.

(** [getStats()] *)
Definition getStats (p : ContextPool) : Z * Z * Z :=
  (Z.of_nat (length (pool p)), created p, maxSize p).

(** What the holders of a pool can do to it: acquire, release any context
    (held or not, any number of times), allocate a context outside the pool
    with [new Context(...)], or assign to the fields of a context they hold. *)
Inductive PoolOp : Type :=
| Acquire (a rq rs : nat)
| Release (id : nat)
| NewContext (a rq rs : nat)
| Mutate (id : nat) (f : Context -> Context).

Definition step (p : ContextPool) (op : PoolOp) : ContextPool :=
  match op with
  | Acquire a rq rs => snd (acquire a rq rs p)
  | Release id => release id p
  | NewContext a rq rs =>
      mkContextPool (<[freshId (heap p):=construct a rq rs]> (heap p)) (pool p)
        (maxSize p) (created p)
  | Mutate id f =>
      mkContextPool (alter f id (heap p)) (pool p) (maxSize p) (created p)
  end.

Definition run (ops : list PoolOp) (p : ContextPool) : ContextPool :=
  fold_left step ops p.

End Context.

(** ** application.ts: hooks, middleware dispatch and the request entry point *)

Module Application.

(** What one request can read and write while it is handled: its context, the
    raw response behind [ctx.res], the logging sinks, a trace user code may
    append to, and the clock [Date.now()]. *)
Record St : Type := mkSt {
  ctx : Context.Context;
  raw : Response.ServerResponse;
  io : Transports.Io;
  trace : list string;
  now : Z
}.

Definition set_ctx (c : Context.Context) (s : St) : St :=
  mkSt c (raw s) (io s) (trace s) (now s).
Definition set_raw (r : Response.ServerResponse) (s : St) : St :=
  mkSt (ctx s) r (io s) (trace s) (now s).
Definition set_io (i : Transports.Io) (s : St) : St :=
  mkSt (ctx s) (raw s) i (trace s) (now s).
Definition say (line : string) (s : St) : St :=
  mkSt (ctx s) (raw s) (io s) (trace s ++ [line]) (now s).

(** A piece of awaited user code: it ends normally or throws, and leaves a
    state. *)
Definition Action : Type := St -> Outcome * St.

(** [HookFunction] and [ErrorHookFunction] of types.ts, awaited. *)
Definition HookFunction : Type := Action.
Definition ErrorHookFunction : Type := Thrown -> Action.

(** Sequencing of awaited calls: the second runs only if the first did not
    throw. *)
Definition andThen (m k : Action) : Action :=
  fun s => match m s with
           | (Ok, s1) => k s1
           | (Fail e, s1) => (Fail e, s1)
           end.

Infix ">>" := andThen (at level 60, right associativity).

Definition pass : Action := fun s => (Ok, s).

(** The body of a middleware [(ctx, next) => ...]: user code around awaited
    calls of the continuation, [await next()], where the body resumes once the
    rest of the chain has settled and a failure of the rest is thrown at the
    [await]. The dispatcher's counter is a local variable of
    [executeMiddleware], out of reach of user code, so a body is a term whose
    only access to it is [AwaitNext]. A body that calls [next()] and drops the
    promise, so that the rest of the chain runs beside it and a failure of the
    rest reaches nobody, is not a term of this syntax. *)
Inductive Code : Type :=
| Act (a : Action)
| AwaitNext
| Seq (p q : Code)
| TryCatch (p : Code) (h : Thrown -> Code)
| Cond (c : St -> bool) (p q : Code).

Definition Middleware : Type := Code.

Record KoaXApplication : Type := mkApp {
  middleware : list Middleware;
  requestHooks : list HookFunction;
  responseHooks : list HookFunction;
  errorHooks : list ErrorHookFunction;
  logger : Logger.Logger;
  timingEnabled : bool;
  errorListeners : list ErrorHookFunction
}.

(** [use(fn)], [onRequest(fn)], [onResponse(fn)], [onError(fn)] and the
    inherited [on('error', fn)]: each appends to its list. *)
Definition use (fn : Middleware) (A : KoaXApplication) : KoaXApplication :=
  mkApp (middleware A ++ [fn]) (requestHooks A) (responseHooks A) (errorHooks A)
    (logger A) (timingEnabled A) (errorListeners A).
Definition onRequest (fn : HookFunction) (A : KoaXApplication) : KoaXApplication :=
  mkApp (middleware A) (requestHooks A ++ [fn]) (responseHooks A) (errorHooks A)
    (logger A) (timingEnabled A) (errorListeners A).
Definition onResponse (fn : HookFunction) (A : KoaXApplication) : KoaXApplication :=
  mkApp (middleware A) (requestHooks A) (responseHooks A ++ [fn]) (errorHooks A)
    (logger A) (timingEnabled A) (errorListeners A).
Definition onError (fn : ErrorHookFunction) (A : KoaXApplication) : KoaXApplication :=
  mkApp (middleware A) (requestHooks A) (responseHooks A) (errorHooks A ++ [fn])
    (logger A) (timingEnabled A) (errorListeners A).
Definition on_error (fn : ErrorHookFunction) (A : KoaXApplication) : KoaXApplication :=
  mkApp (middleware A) (requestHooks A) (responseHooks A) (errorHooks A)
    (logger A) (timingEnabled A) (errorListeners A ++ [fn]).

(** *** Delegated properties of the context *)

(** [ctx.status] *)
Definition ctx_status (s : St) : Z :=
  Response.get_status (Context.response (ctx s)).

(** [ctx.body] *)
Definition ctx_body (s : St) : Response.Body :=
  Response.get_body (Context.response (ctx s)).

(** [ctx.status = code] *)
Definition ctx_set_status (code : Z) (s : St) : St :=
  let (w, r) := Response.set_status code (Context.response (ctx s), raw s) in
  set_raw r (set_ctx (Context.set_response w (ctx s)) s).

(** [ctx.body = val] *)
Definition ctx_set_body (val : Response.Body) (s : St) : St :=
  let (w, r) := Response.set_body val (Context.response (ctx s), raw s) in
  set_raw r (set_ctx (Context.set_response w (ctx s)) s).

(** [ctx.response.send()] *)
Definition ctx_response_send : Action :=
  fun s =>
    let (o, r) := Response.send (Context.response (ctx s)) (raw s) in
    (o, set_raw r s).

(** [ctx.log.info(msg, data)]: reading [info] of an unassigned [ctx.log]
    throws. *)
Definition ctx_log_info (msg : string) (data : gmap string Transports.Value) : Action :=
  fun s =>
    match Context.log (ctx s) with
    | None => (Fail (typeError "Cannot read properties of undefined (reading 'info')"), s)
    | Some lg =>
        let (o, i) := Logger.log_info lg msg data (io s) in (o, set_io i s)
    end.

(** [ctx.log.error(err, msg)] *)
Definition ctx_log_error (err : Thrown) (msg : string) : Action :=
  fun s =>
    match Context.log (ctx s) with
    | None => (Fail (typeError "Cannot read properties of undefined (reading 'error')"), s)
    | Some lg =>
        let (o, i) := Logger.log_error lg err msg (io s) in (o, set_io i s)
    end.

(** [this.logger.error(err, msg)] *)
Definition app_log_error (A : KoaXApplication) (err : Thrown) (msg : string) : Action :=
  fun s =>
    let (o, i) := Logger.log_error (logger A) err msg (io s) in (o, set_io i s).

(** *** Hooks *)

(** [for (const hook of hooks) await hook(ctx)] *)
Fixpoint runHooks (hooks : list HookFunction) : Action :=
  match hooks with
  | [] => pass
  | hook :: rest => hook >> runHooks rest
  end.

Definition executeRequestHooks (A : KoaXApplication) : Action :=
  runHooks (requestHooks A).

Definition executeResponseHooks (A : KoaXApplication) : Action :=
  runHooks (responseHooks A).

(** *** Middleware dispatch *)

(** The variables of one [executeMiddleware] call: the closure variable
    [index] and the request state. [invoked] is a ghost log of the arguments
    of every [dispatch] call, oldest first; no code reads it. *)
Record Disp : Type := mkDisp {
  index : Z;
  invoked : list Z;
  st : St
}.

Definition nextCalledMultipleTimes : Thrown :=
  newError "next() called multiple times".

(** A middleware body run with [next] as its continuation. *)
Fixpoint runCode (body : Code) (next : Disp -> Outcome * Disp) (d : Disp)
  : Outcome * Disp :=
  match body with
  | Act a =>
      let (o, s1) := a (st d) in (o, mkDisp (index d) (invoked d) s1)
  | AwaitNext => next d
  | Seq p q =>
      match runCode p next d with
      | (Ok, d1) => runCode q next d1
      | (Fail e, d1) => (Fail e, d1)
      end
  | TryCatch p h =>
      match runCode p next d with
      | (Ok, d1) => (Ok, d1)
      | (Fail e, d1) => runCode (h e) next d1
      end
  | Cond c p q =>
      if c (st d) then runCode p next d else runCode q next d
  end.

(** [dispatch(i)], where [rest] is [this.middleware.slice(i)]: it is empty
    exactly when [i >= this.middleware.length]. *)
Fixpoint dispatch (rest : list Middleware) (i : Z) (d : Disp) : Outcome * Disp :=
  let d0 := mkDisp (index d) (invoked d ++ [i]) (st d) in
  if i <=? index d0 then (Fail nextCalledMultipleTimes, d0)
  else
    let d1 := mkDisp i (invoked d0) (st d0) in
    match rest with
    | [] => (Ok, d1)
    | fn :: rest' => runCode fn (dispatch rest' (i + 1)) d1
    end.

(** [executeMiddleware(ctx)] *)
Definition executeMiddleware (A : KoaXApplication) : Action :=
  fun s =>
    if (length (middleware A) =? 0)%nat then (Ok, s)
    else
      let (o, d) := dispatch (middleware A) 0 (mkDisp (-1) [] s) in
      (o, st d).

(** *** Respond and the error phase *)

(** [respond(ctx)] *)
Definition respond : Action := ctx_response_send.

(** [err.status || err.statusCode || 500] *)
Definition errorStatus (o : ErrorObj) : Z :=
  default 500 (or_else (Js.status o) (or_else (Js.statusCode o) (Some 500))).

(** [err.expose ? err.message : 'Internal Server Error'] *)
Definition errorMessage (o : ErrorObj) : string :=
  if Js.expose o then Js.message o else "Internal Server Error".

(** The text [JSON.stringify] gives for [{ error: message }]. *)
Definition errorJson (message : string) : string :=
  "{" +:+ quoteJSON "error" +:+ ":" +:+ quoteJSON message +:+ "}".

Definition errorBody (message : string) : Response.Body :=
  Response.BObject (Some (errorJson message)).

(** [for (const hook of this.errorHooks) await hook(err, ctx)] *)
Fixpoint runErrorHooks (hooks : list ErrorHookFunction) (err : Thrown) : Action :=
  match hooks with
  | [] => pass
  | hook :: rest => hook err >> runErrorHooks rest err
  end.

(** [try { for ... } catch (hookErr) { this.logger.error(hookErr, ...) }] *)
Definition executeErrorHooks (A : KoaXApplication) (err : Thrown) : Action :=
  fun s =>
    match runErrorHooks (errorHooks A) err s with
    | (Ok, s1) => (Ok, s1)
    | (Fail hookErr, s1) => app_log_error A hookErr "Error in error hook" s1
    end.

(** What an [EventEmitter] throws when ['error'] is emitted and nobody
    listens: the emitted value if it is an [Error], else an error that wraps
    it. *)
Definition unhandledError (err : Thrown) : Thrown :=
  match err with
  | Obj o => if isError o then err else newError "Unhandled error."
  | Nullish => newError "Unhandled error."
  end.

(** [this.emit('error', err, ctx)]: the listeners run in order; without a
    listener the emitter throws. *)
Definition emitError (A : KoaXApplication) (err : Thrown) : Action :=
  match errorListeners A with
  | [] => fun s => (Fail (unhandledError err), s)
  | ls => runErrorHooks ls err
  end.

(** [if (!ctx.res.writableEnded) ctx.response.send()] *)
Definition sendIfOpen : Action :=
  fun s =>
    if Response.writableEnded (raw s) then (Ok, s) else ctx_response_send s.

(** [handleError(err, ctx)]: reading [status] of a nullish [err] throws. *)
Definition handleError (A : KoaXApplication) (err : Thrown) : Action :=
  match err with
  | Nullish =>
      fun s => (Fail (typeError "Cannot read properties of undefined (reading 'status')"), s)
  | Obj o =>
      let status := errorStatus o in
      let message := errorMessage o in
      ctx_log_error err "Request failed" >>
      executeErrorHooks A err >>
      (fun s => (Ok, ctx_set_body (errorBody message) (ctx_set_status status s))) >>
      sendIfOpen >>
      emitError A err
  end.

(** [`${Date.now() - ctx.startTime}ms`] *)
Definition durationText (s : St) : string :=
  match Context.startTime (ctx s) with
  | Some t => pretty (now s - t) +:+ "ms"
  | None => "NaNms"
  end.

(** [if (this.timingEnabled) ctx.log.info('Request completed', {...})] *)
Definition logCompleted (A : KoaXApplication) : Action :=
  fun s =>
    if timingEnabled A
    then ctx_log_info "Request completed"
           (<["status":=Transports.VNum (ctx_status s)]>
              (<["duration":=Transports.VText (durationText s)]> ∅)) s
    else (Ok, s).

(** The [try] block of [handleRequest]. *)
Definition tryBlock (A : KoaXApplication) : Action :=
  executeRequestHooks A >>
  executeMiddleware A >>
  executeResponseHooks A >>
  logCompleted A >>
  respond.

(** The [finally] block: [res.on('finish', () => this.contextPool.release(ctx))] *)
Definition finallyBlock (s : St) : St :=
  set_raw (Response.raw_onFinish (raw s)) s.

(** [handleRequest] from the acquired context on: [try], [catch], [finally]. *)
Definition handleAcquired (A : KoaXApplication) : Action :=
  fun s =>
    match tryBlock A s with
    | (Ok, s1) => (Ok, finallyBlock s1)
    | (Fail err, s1) =>
        let (o, s2) := handleError A err s1 in (o, finallyBlock s2)
    end.

#[global] Instance Context_inhabited : Inhabited Context.Context :=
  populate (Context.construct 0 0 0).

(** [handleRequest(req, res)]: the context comes from the pool; the request
    then runs on the raw response [r] behind [res]. The result is how the
    returned promise settles, the pool (with the context as the request left
    it) and the final request state. *)
Definition handleRequest (A : KoaXApplication) (appId reqId resId : nat)
    (p : Context.ContextPool) (r : Response.ServerResponse) (i : Transports.Io)
    (clock : Z) : Outcome * Context.ContextPool * St :=
  let (id, p1) := Context.acquire appId reqId resId p in
  let c := Context.heap p1 !!! id in
  let (o, s1) := handleAcquired A (mkSt c r i [] clock) in
  (o,
   Context.mkContextPool (<[id:=ctx s1]> (Context.heap p1)) (Context.pool p1)
     (Context.maxSize p1) (Context.created p1),
   s1).


End Application.

(** ** Conditions on user code used in the statements below *)

Module Conditions.

Import Application.

(** The body never calls its continuation. *)
Fixpoint nextFree (body : Code) : Prop :=
  match body with
  | Act _ => True
  | AwaitNext => False
  | Seq p q => nextFree p /\ nextFree q
  | TryCatch p h => nextFree p /\ forall e, nextFree (h e)
  | Cond _ p q => nextFree p /\ nextFree q
  end.




(** The second request state follows the first with nothing sent in between:
    the [end] calls made so far and the two completion flags of the raw
    response are the same, and a status message that node accepts has not
    been replaced by one it refuses. *)
Definition same (s s' : St) : Prop :=
  Response.ended (raw s') = Response.ended (raw s) /\
  Response.writableEnded (raw s') = Response.writableEnded (raw s) /\
  Response.headersSent (raw s') = Response.headersSent (raw s) /\
  (Response.messageOk (raw s) = true -> Response.messageOk (raw s') = true).




(** A transport whose [write] never throws. *)
Definition quiet (t : Transports.Transport) : Prop :=
  forall entry i e, fst (Transports.write t entry i) <> Threw e.

End Conditions.

(** ** Concrete inputs used in the examples below *)

Module Scenarios.

Import Application.

Definition boom : Thrown := newError "boom".

(** The entry [{ level, time: 0, msg }]. *)
Definition entryAt (level : Z) (msg : string) : Transports.LogEntry :=
  <["level":=Transports.VNum level]>
    (<["time":=Transports.VNum 0]> (<["msg":=Transports.VText msg]> ∅)).

Definition infoEntry : Transports.LogEntry :=
  <["name":=Transports.VText "koax"]> (entryAt 30 "hello").

(** Two user-written transports: [A] throws from every method, [B] works. *)
Definition transportA : Transports.UserTransport :=
  Transports.mkUserTransport "A" (fun _ => Threw boom) (Some (Threw boom)) (Some (Threw boom)).
Definition transportB : Transports.UserTransport :=
  Transports.mkUserTransport "B" (fun _ => Returned) (Some Returned) (Some Returned).

(** [transports.multi(A, B)] *)
Definition multiAB : Transports.Transport :=
  Transports.multi [Transports.User transportA; Transports.User transportB].

(** [transports.filter(B, entry => { throw boom })] *)
Definition throwingFilter : Transports.Transport :=
  Transports.filter (Transports.User transportB) (fun _ => Transports.PThrow boom).

(** [entry => typeof entry.level === 'number' && entry.level >= 50] *)
Definition atErrorLevel (e : Transports.LogEntry) : Transports.PredResult :=
  match Transports.level e with
  | Some (Transports.VNum n) => if 50 <=? n then Transports.PTrue else Transports.PFalse
  | _ => Transports.PFalse
  end.

(** [transports.filter(B, atErrorLevel)] *)
Definition errorsOnly : Transports.Transport :=
  Transports.filter (Transports.User transportB) atErrorLevel.

(** The application's default logger: level [info], console transport. *)
Definition consoleLogger : Logger.Logger :=
  Logger.createLogger Logger.info (Some "koax") false true None.

(** User code that appends a line to the trace. *)
Definition tell (line : string) : Action := fun s => (Ok, say line s).

(** User code that throws. *)
Definition raise (e : Thrown) : Action := fun s => (Fail e, s).

(** [async (ctx, next) => { pre; await next(); post }] *)
Definition onion (pre post : Action) : Code :=
  Seq (Act pre) (Seq AwaitNext (Act post)).

(** A context as [new Context(0, 0, 0)] makes it, and the same context after
    [ctx.log] was bound to the console logger from outside the class. *)
Definition freshCtx : Context.Context := Context.construct 0 0 0.
Definition loggedCtx : Context.Context := Context.set_log (Some consoleLogger) freshCtx.

(** A request about to be handled, with and without a bound [ctx.log]. *)
Definition freshSt : St := mkSt freshCtx Response.freshRaw Transports.emptyIo [] 0.
Definition loggedSt : St := mkSt loggedCtx Response.freshRaw Transports.emptyIo [] 0.

(** An application with the given middleware and hooks, the console logger,
    automatic timing off and no listener for the error event. *)
Definition appWith (mw : list Middleware) (eh : list ErrorHookFunction) : KoaXApplication :=
  mkApp mw [] [] eh consoleLogger false [].

(** [app.onRequest(ctx => { ctx.log = logger })]: user code binds the logger
    that neither the constructor nor [reset] of the context binds. *)
Definition bindLogger : HookFunction :=
  fun s => (Ok, set_ctx (Context.set_log (Some consoleLogger) (ctx s)) s).

(** The same application with [bindLogger] as its only request hook. *)
Definition appBinding (mw : list Middleware) (eh : list ErrorHookFunction)
  : KoaXApplication :=
  mkApp mw [bindLogger] [] eh consoleLogger false [].

(** [app.use(async () => { throw undefined })] *)
Definition throwsUndefined : KoaXApplication :=
  appWith [Act (raise Nullish)] [].


(** [ctx.throw(400, 'bad input')] *)
Definition badInput : Thrown :=
  Obj (mkErrorObj true "Error" "bad input" (Some 400) None true).

(** An error hook that records the status it observes on the context. *)
Definition probeStatus : ErrorHookFunction :=
  fun _ s => (Ok, say (pretty (ctx_status s)) s).

(** One middleware throws a 400; one error hook records [ctx.status]. *)
Definition probedApp : KoaXApplication :=
  appBinding [Act (raise badInput)] [probeStatus].





(** A well-behaved application: a request hook and an onion of two
    middleware that only trace, a body set by the inner one, an error hook that
    throws, and a listener for the error event. *)
Definition politeApp : KoaXApplication :=
  mkApp
    [onion (tell "A-before") (tell "A-after");
     Act (fun s => (Ok, ctx_set_body (Response.BString "hi") s))]
    [tell "request"] [tell "response"] [(fun _ => raise boom)]
    consoleLogger true [(fun _ => tell "error event")].

(** A logger whose console transport is wrapped in [transports.multi], which
    catches what a child throws. *)
Definition sinkLogger : Logger.Logger :=
  Logger.createLogger Logger.info (Some "koax") false true
    (Some (Transports.multi [Transports.console false])).

(** [app.onRequest(ctx => { ctx.log = logger })] for that logger. *)
Definition bindSink : HookFunction :=
  fun s => (Ok, set_ctx (Context.set_log (Some sinkLogger) (ctx s)) s).

(** An application that binds the logger in a request hook; its last
    middleware throws the given error, its only error hook throws too, and
    the error event has a listener. *)
Definition carefulApp (err : Thrown) : KoaXApplication :=
  mkApp
    [onion (tell "A-before") (tell "A-after"); Act (raise err)]
    [bindSink; tell "request"] [tell "response"] [(fun _ => raise boom)]
    sinkLogger true [(fun _ => tell "error event")].

(** [ctx.throw(1000, 'too far')] *)
Definition tooFar : Thrown :=
  Obj (mkErrorObj true "Error" "too far" (Some 1000) None true).

End Scenarios.

(** ** transports.ts: the buffering transports *)

Module FileTransport.

(** The state of a [FileTransport]: the buffered lines, the threshold, the
    chunks handed to [stream.write] (oldest first), whether the flush interval
    is still set and whether [stream.end()] was called. A write to a stream
    that has ended does not reach the file; [lateWrites] counts them. *)
Record FileTransport : Type := mkFileTransport {
  buffer : list string;
  bufferSize : Z;
  stream : list string;
  flushInterval : bool;
  streamEnded : bool;
  lateWrites : nat
}.

(** [options.bufferSize || 100] *)
Definition thresholdOf (option : option Z) : Z :=
  default 100 (or_else option (Some 100)).

(** [new FileTransport({ path, bufferSize })] *)
Definition construct (size : option Z) : FileTransport :=
  mkFileTransport [] (thresholdOf size) [] true false 0.

Definition newline : string := String "010"%char "".

(** [buffer.join('\n') + '\n'] *)
Definition lines (buf : list string) : string :=
  String.concat newline buf +:+ newline.

(** [stream.write(chunk)] *)
Definition stream_write (chunk : string) (t : FileTransport) : FileTransport :=
  if streamEnded t
  then mkFileTransport (buffer t) (bufferSize t) (stream t) (flushInterval t)
         true (S (lateWrites t))
  else mkFileTransport (buffer t) (bufferSize t) (stream t ++ [chunk])
         (flushInterval t) false (lateWrites t).

(** [flush()] *)
Definition flush (t : FileTransport) : FileTransport :=
  match buffer t with
  | [] => t
  | _ :: _ =>
      let t1 := stream_write (lines (buffer t)) t in
      mkFileTransport [] (bufferSize t1) (stream t1) (flushInterval t1)
        (streamEnded t1) (lateWrites t1)
  end.

(** [write(entry)], for the text [line] that [JSON.stringify(entry)] gives. *)
Definition write (line : string) (t : FileTransport) : FileTransport :=
  let t1 := mkFileTransport (buffer t ++ [line]) (bufferSize t) (stream t)
              (flushInterval t) (streamEnded t) (lateWrites t) in
  if bufferSize t1 <=? Z.of_nat (length (buffer t1)) then flush t1 else t1.

(** The interval timer fires: [() => this.flush()], while it is set. *)
Definition tick (t : FileTransport) : FileTransport :=
  if flushInterval t then flush t else t.

(** [close()]: [clearInterval], [flush], [stream.end()]. *)
Definition close (t : FileTransport) : FileTransport :=
  let t1 := flush (mkFileTransport (buffer t) (bufferSize t) (stream t) false
                     (streamEnded t) (lateWrites t)) in
  mkFileTransport (buffer t1) (bufferSize t1) (stream t1) (flushInterval t1)
    true (lateWrites t1).

(** What can happen to an open transport. *)
Inductive Op : Type :=
| Write (line : string)
| Flush
| Tick.

Definition step (t : FileTransport) (op : Op) : FileTransport :=
  match op with
  | Write line => write line t
  | Flush => flush t
  | Tick => tick t
  end.

Definition run (ops : list Op) (t : FileTransport) : FileTransport :=
  fold_left step ops t.

(** The lines the [Write] operations of a run carry, in order. *)
Definition written (ops : list Op) : list string :=
  omap (fun op => match op with Write line => Some line | _ => None end) ops.

(** Flushed and buffered lines of an open transport account for [ls]: the
    chunks written are the texts of non-empty batches, and the batches followed
    by the buffer are [ls]. *)
Definition accountsFor (t : FileTransport) (ls : list string) : Prop :=
  streamEnded t = false /\ lateWrites t = 0%nat /\
  exists batches,
    stream t = map lines batches /\
    Forall (fun b => b <> []) batches /\
    concat batches ++ buffer t = ls.

End FileTransport.

Module HttpTransport.

(** The state of an [HttpTransport]: the buffered entries, the threshold, the
    batches handed to [fetch] (oldest first), and whether the flush interval
    is still set. *)
Record HttpTransport : Type := mkHttpTransport {
  buffer : list Transports.LogEntry;
  bufferSize : Z;
  posted : list (list Transports.LogEntry);
  flushInterval : bool
}.

(** [options.bufferSize || 50] *)
Definition thresholdOf (option : option Z) : Z :=
  default 50 (or_else option (Some 50)).

(** [new HttpTransport({ url, bufferSize })] *)
Definition construct (size : option Z) : HttpTransport :=
  mkHttpTransport [] (thresholdOf size) [] true.

Section WithFetch.

(** How the outbound call for a batch ends: [fetch] returns a promise that
    resolves or rejects, or throws. *)
Variable fetch : list Transports.LogEntry -> Completion.

(** [flush()]: the buffer is copied and emptied, then posted; a failure of
    the post is caught and reported on [console.error]. The result is how the
    promise of this [async] method settles; what follows the [await] is run at
    the call. *)
Definition flush (t : HttpTransport) (io : Transports.Io)
  : Completion * HttpTransport * Transports.Io :=
  match buffer t with
  | [] => (Returned, t, io)
  | _ :: _ =>
      let logs := buffer t in
      let t1 := mkHttpTransport [] (bufferSize t) (posted t ++ [logs])
                  (flushInterval t) in
      match await (fetch logs) with
      | Ok => (Returned, t1, io)
      | Fail err =>
          (Returned, t1, Transports.io_consoleError "HTTP transport error:" err io)
      end
  end.

(** [write(entry)]: the promise of the [flush] it may start is dropped. *)
Definition write (entry : Transports.LogEntry) (t : HttpTransport)
    (io : Transports.Io) : HttpTransport * Transports.Io :=
  let t1 := mkHttpTransport (buffer t ++ [entry]) (bufferSize t) (posted t)
              (flushInterval t) in
  if bufferSize t1 <=? Z.of_nat (length (buffer t1))
  then
    match flush t1 io with
    | (Returned, t2, io2) => (t2, io2)
    | (Threw err, t2, io2) => (t2, io2)
    | (Rejected err, t2, io2) => (t2, Transports.io_unhandled err io2)
    end
  else (t1, io).

(** The interval timer fires. *)
Definition tick (t : HttpTransport) (io : Transports.Io)
  : HttpTransport * Transports.Io :=
  if flushInterval t
  then
    match flush t io with
    | (Rejected err, t2, io2) => (t2, Transports.io_unhandled err io2)
    | (_, t2, io2) => (t2, io2)
    end
  else (t, io).

(** [close()]: [clearInterval], then [flush], whose promise is dropped. *)
Definition close (t : HttpTransport) (io : Transports.Io)
  : HttpTransport * Transports.Io :=
  match flush (mkHttpTransport (buffer t) (bufferSize t) (posted t) false) io with
  | (Rejected err, t2, io2) => (t2, Transports.io_unhandled err io2)
  | (_, t2, io2) => (t2, io2)
  end.

Inductive Op : Type :=
| Write (entry : Transports.LogEntry)
| Flush
| Tick
| Close.

Definition step (s : HttpTransport * Transports.Io) (op : Op)
  : HttpTransport * Transports.Io :=
  match op with
  | Write entry => write entry (fst s) (snd s)
  | Flush => let '(_, t, io) := flush (fst s) (snd s) in (t, io)
  | Tick => tick (fst s) (snd s)
  | Close => close (fst s) (snd s)
  end.

Definition run (ops : list Op) (s : HttpTransport * Transports.Io)
  : HttpTransport * Transports.Io :=
  fold_left step ops s.

(** The batches whose post failed. *)
Definition failedPosts (batches : list (list Transports.LogEntry))
  : list (list Transports.LogEntry) :=
  List.filter (fun b => match await (fetch b) with Ok => false | Fail _ => true end)
    batches.

(** Posted and buffered entries account for [es], and every failed post was
    reported once. *)
Definition httpAccountsFor (s0 : Transports.Io) (s : HttpTransport * Transports.Io)
    (es : list Transports.LogEntry) (before : list (list Transports.LogEntry)) : Prop :=
  exists batches,
    posted (fst s) = before ++ batches /\
    Forall (fun b => b <> []) batches /\
    concat batches ++ buffer (fst s) = es /\
    length (Transports.consoleError (snd s)) =
      (length (Transports.consoleError s0) + length (failedPosts batches))%nat /\
    Transports.unhandled (snd s) = Transports.unhandled s0 /\
    Transports.calls (snd s) = Transports.calls s0.

End WithFetch.

(** The entries the [Write] operations of a run carry, in order. *)
Definition written (ops : list Op) : list Transports.LogEntry :=
  omap (fun op => match op with Write e => Some e | _ => None end) ops.

End HttpTransport.

(** ** logger.ts: the rest of the public interface *)

Module LoggerApi.

(** [isLevelEnabled(level)] *)
Definition isLevelEnabled (lg : Logger.Logger) (lvl : Logger.LogLevel) : bool :=
  Logger.enabled lg && (Logger.level lg <=? Logger.LOG_LEVELS lvl).

(** [generateRequestId()], given [Date.now()] and the module variable
    [requestCounter]: the identifier and the new value of the counter. *)
Definition generateRequestId (clock : Z) (requestCounter : Z) : string * Z :=
  let counter := Z.rem (requestCounter + 1) 1000000 in
  (pretty clock +:+ "-" +:+ pretty counter, counter).

(** The counter after [n] calls. *)
Fixpoint counterAfter (n : nat) (requestCounter : Z) : Z :=
  match n with
  | O => requestCounter
  | S m => snd (generateRequestId 0 (counterAfter m requestCounter))
  end.

End LoggerApi.

(** ** response.ts: headers, type and message *)

Module ResponseHeaders.

Import Response.

(** [res.removeHeader(field)], before the headers are sent. *)
Definition raw_removeHeader (field : string) (r : ServerResponse) : ServerResponse :=
  mkServerResponse (statusCode r) (statusMessage r)
    (delete (toLowerCase field) (headers r))
    (headersSent r) (writableEnded r) (ended r) (finishListeners r).

(** [get(field)] *)
Definition get (field : string) (r : ServerResponse) : option string :=
  raw_getHeader field r.

(** [remove(field)] *)
Definition remove (field : string) (r : ServerResponse) : ServerResponse :=
  if headersSent r then r else raw_removeHeader field r.

(** [s.split(';')[0]] *)
Fixpoint beforeSemicolon (s : string) : string :=
  match s with
  | EmptyString => EmptyString
  | String c rest =>
      if Ascii.eqb c ";"%char then EmptyString else String c (beforeSemicolon rest)
  end.

(** [set type(type)] *)
Definition set_type (type : string) (r : ServerResponse) : Outcome * ServerResponse :=
  set "Content-Type" type r.

(** [get type()] *)
Definition get_type (r : ServerResponse) : string :=
  match get "Content-Type" r with
  | None => ""
  | Some type => if decide (type = "") then "" else beforeSemicolon type
  end.

(** [a || b] on texts: the empty text and [undefined] are falsy. *)
Definition textOr (a : option string) (b : string) : string :=
  match a with
  | Some s => if decide (s = "") then b else s
  | None => b
  end.

(** [get message()] *)
Definition get_message (w : KoaXResponse) (r : ServerResponse) : string :=
  textOr (_message w) (textOr (statusMessage r) "").

(** [set message(msg)] *)
Definition set_message (msg : string) (wr : KoaXResponse * ServerResponse)
  : KoaXResponse * ServerResponse :=
  let (w, r) := wr in
  (mkKoaXResponse (_body w) (_status w) (Some msg) (_explicitStatus w),
   raw_setStatusMessage msg r).

End ResponseHeaders.

(** ** request.ts: the request wrapper over the raw [IncomingMessage] *)

Module Request.

Import Context.

(** The part of node's [IncomingMessage] the wrapper touches. *)
Record IncomingMessage : Type := mkIncomingMessage {
  url : option string;
  method : option string;
  headers : gmap string string
}.

(** A value of the parsed query object: a text, or the texts of a repeated
    parameter. *)
Inductive QueryValue : Type :=
| QString (s : string)
| QArray (l : list string).

(** The fields of the object the legacy [url.parse] returns that the wrapper
    reads. They are plain data properties: [path] is computed once, when the
    URL is parsed, from the path name and the query text. *)
Record Url : Type := mkUrl {
  pathname : option string;
  path : option string;
  query : gmap string QueryValue
}.

Section WithParser.

(** [parse] of node's [url] module, with the query parsed into an object. *)
Variable parseUrl : string -> Url.

(** [get url()] *)
Definition get_url (r : IncomingMessage) : string :=
  ResponseHeaders.textOr (url r) "/".

(** [set url(val)] *)
Definition set_url (val : string) (wr : KoaXRequest * IncomingMessage)
  : KoaXRequest * IncomingMessage :=
  let (w, r) := wr in
  (mkKoaXRequest (rq_req w) None None None,
   mkIncomingMessage (Some val) (method r) (headers r)).

(** [get method()] *)
Definition get_method (r : IncomingMessage) : string :=
  ResponseHeaders.textOr (method r) "GET".

(** [set method(val)] *)
Definition set_method (val : string) (r : IncomingMessage) : IncomingMessage :=
  mkIncomingMessage (url r) (Some val) (headers r).

(** [get path()]: the value read and the wrapper with its cache filled. *)
Definition get_path (w : KoaXRequest) (r : IncomingMessage) : string * KoaXRequest :=
  match _path w with
  | Some p => (p, w)
  | None =>
      let p := ResponseHeaders.textOr (pathname (parseUrl (get_url r))) "/" in
      (p, mkKoaXRequest (rq_req w) (_url w) (Some p) (_query w))
  end.

(** [set path(val)]: [val] is stored into the [pathname] property of the
    parsed object, which nothing reads afterwards; the URL becomes the [path]
    property the parse computed. *)
Definition set_path (val : string) (wr : KoaXRequest * IncomingMessage)
  : KoaXRequest * IncomingMessage :=
  let parsed := parseUrl (get_url (snd wr)) in
  let parsed1 := mkUrl (Some val) (path parsed) (query parsed) in
  set_url (ResponseHeaders.textOr (path parsed1) "/") wr.

(** [value] for a text, [value[0] || ''] for an array. *)
Definition queryText (v : QueryValue) : string :=
  match v with
  | QString s => s
  | QArray l => ResponseHeaders.textOr (head l) ""
  end.

(** [this._query[key] = ...] on the plain object [this._query]. The key
    [__proto__] names no property of its own there: the assignment of a text
    to it reaches the setter of [Object.prototype] and changes nothing. *)
Definition assignQuery (key : string) (value : QueryValue)
    (acc : gmap string string) : gmap string string :=
  if decide (key = "__proto__") then acc else <[key:=queryText value]> acc.

(** [get query()]: the value read and the wrapper with its cache filled. *)
Definition get_query (w : KoaXRequest) (r : IncomingMessage)
  : gmap string string * KoaXRequest :=
  match _query w with
  | Some q => (q, w)
  | None =>
      let q := map_fold assignQuery ∅ (query (parseUrl (get_url r))) in
      (q, mkKoaXRequest (rq_req w) (_url w) (_path w) (Some q))
  end.

(** User code assigns [ctx.req.url] on the raw request, past the wrapper. *)
Definition raw_set_url (val : string) (r : IncomingMessage) : IncomingMessage :=
  mkIncomingMessage (Some val) (method r) (headers r).

End WithParser.

End Request.

(** ** context.ts: the helpers of the context *)

Module ContextApi.

Import Application.

(** The error [ctx.throw(status, message)] throws. *)
Definition throw (status : Z) (message : option string) : Thrown :=
  Obj (mkErrorObj true "Error"
         (ResponseHeaders.textOr message ("HTTP Error " +:+ pretty status))
         (Some status) None true).

(** [ctx.throw(status, message)] *)
Definition ctx_throw (status : Z) (message : option string) : Action :=
  fun s => (Fail (throw status message), s).

(** [ctx.assert(condition, status, message)] *)
Definition ctx_assert (condition : bool) (status : Z) (message : option string)
  : Action :=
  fun s => if condition then (Ok, s) else ctx_throw status message s.

(** [getPoolStats()] *)
Definition getPoolStats (p : Context.ContextPool) : Z * Z * Z :=
  Context.getStats p.

End ContextApi.

(** ** Further conditions used in the statements below *)

Module MoreConditions.

Import Application.

(** Nothing stands unguarded between the entry and the caller of [write]: on
    the way of the entry through the tree, outside any [MultiTransport] and
    [FunctionTransport], no filter predicate throws on it, no console
    transport fails to format it, and no user-written transport throws on
    it. *)
Fixpoint guarded (entry : Transports.LogEntry) (io : Transports.Io)
    (t : Transports.Transport) : Prop :=
  match t with
  | Transports.Console prettyPrint =>
      Transports.formatError prettyPrint entry io = None
  | Transports.Multi _ => True
  | Transports.Function _ _ => True
  | Transports.Filter inner pred =>
      match pred entry with
      | Transports.PTrue => guarded entry io inner
      | Transports.PFalse => True
      | Transports.PThrow _ => False
      end
  | Transports.User u =>
      forall err, Transports.uwrite u entry <> Threw err
  end.

(** The flush calls a list of user-written children receives. *)
Definition flushCalls (us : list Transports.UserTransport) : list Transports.Call :=
  omap (fun u => match Transports.uflush u with
                 | Some _ => Some (Transports.CFlush (Transports.uname u))
                 | None => None
                 end) us.

(** The code of a chain of onion middleware, given as (before, after) pairs,
    around an innermost piece of code: each pair wraps the code of the pairs
    after it. *)
Fixpoint onionActs (layers : list (Action * Action)) (inner : Action) : Action :=
  match layers with
  | [] => inner
  | (pre, post) :: rest => pre >> onionActs rest inner >> post
  end.

(** The middleware of such a chain. *)
Definition onions (layers : list (Action * Action)) : list Middleware :=
  map (fun layer => Scenarios.onion (fst layer) (snd layer)) layers.

(** A pool operation that leaves the pooling flag of every context alone. *)
Definition keepsFlag (op : Context.PoolOp) : Prop :=
  match op with
  | Context.Mutate _ f => forall c, Context._inUse (f c) = Context._inUse c
  | _ => True
  end.

(** The contexts of the free list are allocated, listed once and not in
    use. *)
Definition freeListSound (p : Context.ContextPool) : Prop :=
  NoDup (Context.pool p) /\
  forall id, id ∈ Context.pool p ->
    exists c, Context.heap p !! id = Some c /\ Context._inUse c = Some false.

(** The contexts whose pooling flag was ever assigned are among the [made]
    ones, which are allocated and as many as the pool counts as created. *)
Definition countsCreated (p : Context.ContextPool) (made : gset nat) : Prop :=
  Z.of_nat (size made) = Context.created p /\
  made ⊆ dom (Context.heap p) /\
  forall id c, Context.heap p !! id = Some c -> Context._inUse c <> None -> id ∈ made.

End MoreConditions.

(** * Properties *)

(** ** The response wrapper *)

Section ResponseProperties.

Import Response.

Lemma set_status_explicit code w r :
  _explicitStatus (fst (set_status code (w, r))) = true.
Proof. reflexivity. Qed.

Lemma set_body_stores val w r :
  get_body (fst (set_body val (w, r))) = val.
Proof.
  unfold set_body; simpl.
  destruct (_explicitStatus w), (not_nullish val); reflexivity.
Qed.

(** C10. A freshly constructed or reset [KoaXResponse] has status 404 and no
    explicit status; assigning a non-null body while no status was set
    explicitly makes the status 200; assigning a body after an explicit status
    assignment, or assigning a null or undefined body, leaves the status as it
    was. *)
Theorem body_assignment_and_default_status :
  (get_status construct = 404 /\ _explicitStatus construct = false) /\
  (forall w, get_status (reset w) = 404 /\ _explicitStatus (reset w) = false) /\
  (forall w r val,
      _explicitStatus w = false -> not_nullish val = true ->
      get_status (fst (set_body val (w, r))) = 200) /\
  (forall w r code val,
      get_status (fst (set_body val (set_status code (w, r)))) = code) /\
  (forall w r val,
      _explicitStatus w = true ->
      get_status (fst (set_body val (w, r))) = get_status w) /\
  (forall w r val,
      not_nullish val = false ->
      get_status (fst (set_body val (w, r))) = get_status w).
Proof.
  split; [split; reflexivity |].
  split; [intros w; split; reflexivity |].
  split; [| split; [| split]].
  - intros w r val Hex Hval. unfold set_body; simpl. rewrite Hex, Hval. reflexivity.
  - intros w r code val. reflexivity.
  - intros w r val Hex. unfold set_body; simpl. rewrite Hex. reflexivity.
  - intros w r val Hval. unfold set_body; simpl. rewrite Hval.
    rewrite andb_false_r. reflexivity.
Qed.

Example body_then_status_example :
  get_status (fst (set_body (BString "x") (construct, freshRaw))) = 200 /\
  get_status (fst (set_body (BString "x") (set_status 201 (construct, freshRaw)))) = 201 /\
  get_status (fst (set_body BNull (construct, freshRaw))) = 404.
Proof. repeat split. Qed.

(** *** What [send] does to the raw response *)

Lemma valueUnit_digit (x : N) : valueUnit (codeUnit (pretty_N_char x)) = true.
Proof. unfold pretty_N_char. repeat case_match; reflexivity. Qed.

Lemma validHeaderValue_go (x : N) (s : string) :
  validHeaderValue s = true -> validHeaderValue (pretty_N_go x s) = true.
Proof.
  revert s. induction x as [x IH] using (well_founded_induction N.lt_wf_0).
  intros s Hs. destruct (decide (x = 0%N)) as [->|Hne].
  - by rewrite pretty_N_go_0.
  - rewrite pretty_N_go_step by lia. apply IH.
    + apply N.div_lt; lia.
    + unfold validHeaderValue in *. simpl. by rewrite valueUnit_digit.
Qed.

(** The decimal text of a length is a header value node accepts. *)
Lemma validHeaderValue_pretty (n : nat) : validHeaderValue (pretty n) = true.
Proof.
  unfold pretty, pretty_nat, pretty, pretty_N.
  destruct (decide _); [reflexivity|]. by apply validHeaderValue_go.
Qed.

Lemma set_accepts field val r :
  headersSent r = false -> validHeaderName field = true ->
  validHeaderValue val = true ->
  set field val r = (Ok, withHeader field val r).
Proof.
  intros Hh Hn Hv. unfold set, raw_setHeader, withHeader. by rewrite Hh, Hn, Hv.
Qed.

(** [send] on an open response: either [JSON.stringify] throws and nothing is
    touched, or the headers are set and [res.end] is called. *)
Lemma send_open w r :
  writableEnded r = false -> headersSent r = false ->
  send w r =
    if serialises w
    then raw_end (payload w) (sendHeaders w r)
    else (Fail (typeError "Converting circular structure to JSON"), r).
Proof.
  intros Hw Hh. unfold send, payload, sendHeaders, serialises, bufferLength, byteLength.
  rewrite Hw, Hh. simpl.
  destruct (_body w) as [| |b|b|[j|]]; simpl; try done.
  - by rewrite (set_accepts "Content-Length" _ r Hh eq_refl (validHeaderValue_pretty _)).
  - by rewrite (set_accepts "Content-Length" _ r Hh eq_refl (validHeaderValue_pretty _)).
  - rewrite (set_accepts "Content-Type" "application/json; charset=utf-8" r Hh
               eq_refl eq_refl). simpl.
    by rewrite (set_accepts "Content-Length" _
                  (withHeader "Content-Type" "application/json; charset=utf-8" r)
                  Hh eq_refl (validHeaderValue_pretty _)).
Qed.

Lemma sendHeaders_frame w r :
  statusCode (sendHeaders w r) = statusCode r /\
  statusMessage (sendHeaders w r) = statusMessage r /\
  headersSent (sendHeaders w r) = headersSent r /\
  writableEnded (sendHeaders w r) = writableEnded r /\
  ended (sendHeaders w r) = ended r /\
  finishListeners (sendHeaders w r) = finishListeners r.
Proof. unfold sendHeaders. by destruct (_body w) as [| |b|b|[j|]]. Qed.

(** [res.end] on a response whose headers are not sent goes through exactly
    when node accepts the status code and the status message. *)
Lemma raw_end_open data r :
  headersSent r = false ->
  raw_end data r =
    match headError (statusCode r) r with
    | Some err => (Fail err, r)
    | None => (Ok, finished data r)
    end.
Proof. intros Hh. unfold raw_end. by rewrite Hh. Qed.


(** Whatever [send] does, it makes at most one [end] call; when it makes
    none it leaves the response open or closed as it was. *)
Lemma send_outcomes w r :
  (fst (send w r) = Ok /\
   ended (snd (send w r)) = ended r ++ [payload w] /\
   writableEnded (snd (send w r)) = true /\
   headersSent (snd (send w r)) = true /\
   writableEnded r = false /\ headersSent r = false) \/
  (ended (snd (send w r)) = ended r /\
   writableEnded (snd (send w r)) = writableEnded r /\
   headersSent (snd (send w r)) = headersSent r /\
   statusMessage (snd (send w r)) = statusMessage r /\
   (fst (send w r) = Ok -> writableEnded r || headersSent r = true)).
Proof.
  destruct (writableEnded r || headersSent r) eqn:E.
  - right. unfold send. rewrite E. by repeat split.
  - apply orb_false_elim in E as [Hw Hh]. rewrite (send_open w r Hw Hh).
    destruct (serialises w); [|right; by repeat split].
    destruct (sendHeaders_frame w r) as (Hc & Hm & Hh' & Hw' & He & _).
    rewrite raw_end_open by congruence.
    destruct (headError _ _); simpl.
    + right. by repeat split.
    + left. rewrite He. by repeat split.
Qed.

(** [send] never writes the status code. *)
Lemma send_statusCode w r : statusCode (snd (send w r)) = statusCode r.
Proof.
  destruct (writableEnded r || headersSent r) eqn:E.
  - unfold send. by rewrite E.
  - apply orb_false_elim in E as [Hw Hh]. rewrite (send_open w r Hw Hh).
    destruct (serialises w); [|done].
    destruct (sendHeaders_frame w r) as (Hc & _ & Hh' & _).
    rewrite raw_end_open by congruence.
    by destruct (headError _ _).
Qed.


End ResponseProperties.

(** ** The transports *)

Section TransportProperties.

Import Transports.

(** [MultiTransport.write] never throws, whatever its children do. *)
Lemma multi_write_returns ts entry io :
  fst (write (Multi ts) entry io) = Returned.
Proof. reflexivity. Qed.

(** Every user-written child of a [MultiTransport] receives the entry, in
    order, whether or not the children before it threw. *)
Lemma multi_write_reaches_every_child (us : list UserTransport) entry io :
  calls (snd (write (Multi (map User us)) entry io)) =
  calls io ++ map (fun u => CWrite (uname u) entry) us.
Proof.
  simpl. revert io.
  induction us as [|u us IH]; intros io; simpl.
  - by rewrite app_nil_r.
  - destruct (uwrite u entry); rewrite IH; simpl; by rewrite <- app_assoc.
Qed.

(** The failure of a child's [write] is reported on [console.error], once per
    failing child. *)
Example multi_write_isolates_children :
  write Scenarios.multiAB Scenarios.infoEntry emptyIo =
  (Returned,
   io_call (CWrite "B" Scenarios.infoEntry)
     (io_consoleError "Transport write error:" Scenarios.boom
        (io_call (CWrite "A" Scenarios.infoEntry) emptyIo))).
Proof. reflexivity. Qed.

(** C8, at [multi(A, B)] where [A.flush] and [A.close] throw:
    [MultiTransport.flush] and [MultiTransport.close] call [A], never reach
    [B], report nothing on [console.error], and hand the error of [A] to their
    caller as a rejected promise. *)
Theorem multi_flush_close_stop_at_failing_child io :
  flush Scenarios.multiAB io =
    (Rejected Scenarios.boom, io_call (CFlush "A") io) /\
  close Scenarios.multiAB io =
    (Rejected Scenarios.boom, io_call (CClose "A") io).
Proof. split; reflexivity. Qed.

(** A child whose [flush] returns a rejected promise does not stop the
    others, but its error still reaches the caller. *)
Lemma multi_flush_rejecting_child (a b : UserTransport) (e : Thrown) io :
  uflush a = Some (Rejected e) -> uflush b = Some Returned ->
  flush (Multi [User a; User b]) io =
    (Rejected e, io_call (CFlush (uname b)) (io_call (CFlush (uname a)) io)).
Proof.
  intros Ha Hb.
  assert (Hfa : has_flush (User a) = true)
    by (simpl; rewrite Ha; apply bool_decide_eq_true_2; eauto).
  assert (Hfb : has_flush (User b) = true)
    by (simpl; rewrite Hb; apply bool_decide_eq_true_2; eauto).
  cbn [flush promise_all_map]. rewrite Hfa, Hfb. cbn [flush].
  rewrite Ha, Hb. reflexivity.
Qed.

(** [FilterTransport.write] by cases. It evaluates the predicate
    first. On a falsy result the entry is not forwarded and the call returns.
    When the predicate throws the entry is not forwarded either, and the
    exception goes to the caller. On a truthy result the entry is forwarded to
    the wrapped transport, whose exception, if it throws, goes to the caller
    too; a promise it returns is dropped. *)
Theorem filter_write_cases (inner : Transport) (pred : LogEntry -> PredResult)
    (entry : LogEntry) (io : Io) :
  (pred entry = PFalse ->
     write (Filter inner pred) entry io = (Returned, io)) /\
  (forall err, pred entry = PThrow err ->
     write (Filter inner pred) entry io = (Threw err, io)) /\
  (pred entry = PTrue ->
     forall c io1, write inner entry io = (c, io1) ->
     write (Filter inner pred) entry io =
       match c with
       | Rejected err => (Returned, io_unhandled err io1)
       | _ => (c, io1)
       end).
Proof.
  split; [| split].
  - intros H. simpl. by rewrite H.
  - intros err H. simpl. by rewrite H.
  - intros H c io1 Hw. simpl. rewrite H, Hw. by destruct c.
Qed.

(** C7, on the code, at [filter(B, entry => { throw boom })]: the entry is
    not forwarded to [B] (fail closed), but [write] does throw to its caller,
    with the exception of the predicate. *)
Theorem filter_predicate_exception_reaches_caller :
  write Scenarios.throwingFilter Scenarios.infoEntry emptyIo =
  (Threw Scenarios.boom, emptyIo).
Proof. reflexivity. Qed.

(** The filter of the design document, [entry.level >= 50], over the levels
    info, warn, error, fatal: exactly the last two reach the inner transport. *)
Example errors_only_filter :
  let at_level l := Scenarios.entryAt l "m" in
  let io1 := snd (write Scenarios.errorsOnly (at_level 30) emptyIo) in
  let io2 := snd (write Scenarios.errorsOnly (at_level 40) io1) in
  let io3 := snd (write Scenarios.errorsOnly (at_level 50) io2) in
  let io4 := snd (write Scenarios.errorsOnly (at_level 60) io3) in
  calls io4 = [CWrite "B" (at_level 50); CWrite "B" (at_level 60)].
Proof. reflexivity. Qed.

End TransportProperties.

(** ** The logger *)

Section LoggerProperties.

Import Logger.

(** A logger with minimum level [warn] builds no entry for a [trace], [debug]
    or [info] call and never touches its transport, and neither does a
    disabled logger at any level. *)
Theorem below_threshold_nothing_is_written
    (nm : option string) (pretty : bool) (t : option Transports.Transport)
    (msg : string) (data : gmap string Transports.Value) (i : Transports.Io) :
  log (createLogger warn nm pretty true t) trace msg data i = (Ok, i) /\
  log (createLogger warn nm pretty true t) debug msg data i = (Ok, i) /\
  log (createLogger warn nm pretty true t) info msg data i = (Ok, i) /\
  (forall lvl l, log (createLogger lvl nm pretty false t) l msg data i = (Ok, i)).
Proof. repeat split. Qed.

(** A child logger writes to the transport of its parent. *)
Lemma child_shares_transport lg bs : transport (child lg bs) = transport lg.
Proof. reflexivity. Qed.

End LoggerProperties.

(** ** The context pool *)

Section PoolProperties.

Import Context.

Lemma reset_keeps_identity_fields a rq rs c :
  requestId (reset a rq rs c) = requestId c /\
  startTime (reset a rq rs c) = startTime c /\
  log (reset a rq rs c) = log c.
Proof. repeat split. Qed.

(** [reset] does clear what it assigns: the state map and both wrappers. *)
Lemma reset_clears_request_state a rq rs c :
  state (reset a rq rs c) = ∅ /\
  response (reset a rq rs c) = Response.construct /\
  request (reset a rq rs c) = request_construct rq.
Proof. repeat split. Qed.

(** C2, on the code. The context [acquire] hands out on a pool miss has run
    [reset], and its request identifier, start timestamp and logger are all
    [undefined]: neither the constructor nor [reset] assigns them. *)
Theorem acquire_leaves_identity_fields_undefined (n : Z) (a rq rs : nat) :
  exists c,
    heap (snd (acquire a rq rs (newPool n))) !! fst (acquire a rq rs (newPool n)) = Some c /\
    c = set_inUse true (reset a rq rs c) /\
    requestId c = None /\ startTime c = None /\ log c = None.
Proof.
  eexists. split.
  - simpl. apply lookup_insert_eq.
  - repeat split.
Qed.

Lemma step_keeps_bound (p : ContextPool) (op : PoolOp) :
  Z.of_nat (length (pool p)) <= maxSize p ->
  maxSize (step p op) = maxSize p /\
  Z.of_nat (length (pool (step p op))) <= maxSize p.
Proof.
  intros Hle. destruct op as [a rq rs|id|a rq rs|id f]; simpl.
  - unfold acquire. destruct (pool p) as [|x rest] eqn:E; simpl in *; split; lia.
  - unfold release. destruct (heap p !! id) as [c|]; [|split; [done|lia]].
    destruct (not_inUse c); [split; [done|lia]|].
    destruct (Z.of_nat (length (pool p)) <? maxSize p) eqn:E; simpl.
    + apply Z.ltb_lt in E. split; lia.
    + split; lia.
  - split; [done|lia].
  - split; [done|lia].
Qed.

Lemma run_keeps_bound (ops : list PoolOp) (p : ContextPool) :
  Z.of_nat (length (pool p)) <= maxSize p ->
  maxSize (run ops p) = maxSize p /\
  Z.of_nat (length (pool (run ops p))) <= maxSize p.
Proof.
  revert p. induction ops as [|op ops IH]; intros p Hle; simpl.
  - split; [done|lia].
  - destruct (step_keeps_bound p op Hle) as [Hm Hl].
    destruct (IH (step p op)) as [Hm' Hl']; [lia|].
    unfold run in *. rewrite Hm in *. split; [done|lia].
Qed.

(** C9. For a pool of maximum size [n] and every sequence of acquires and
    releases (of any context, any number of times), the free list never holds
    more than [n] contexts, and a release that finds it full leaves it as it
    is. *)
Theorem free_list_never_exceeds_max (n : Z) (ops : list PoolOp) (id : nat) :
  0 <= n ->
  let p := run ops (newPool n) in
  Z.of_nat (length (pool p)) <= n /\
  (Z.of_nat (length (pool p)) = n -> pool (release id p) = pool p).
Proof.
  intros Hn p.
  destruct (run_keeps_bound ops (newPool n)) as [Hm Hl]; [simpl; lia|].
  fold p in Hm, Hl. simpl in Hm, Hl. split; [exact Hl|].
  intros Hfull. unfold release.
  destruct (heap p !! id) as [c|]; [|done].
  destruct (not_inUse c); [done|].
  rewrite Hm, Hfull, Z.ltb_irrefl. reflexivity.
Qed.

(** A pool of size 1: two contexts are acquired, then the first is released
    once and the second three times. *)
Lemma free_list_never_exceeds_max_witness :
  let p := run [Acquire 0 0 0; Acquire 0 1 1; Release 0; Release 1; Release 1; Release 1]
             (newPool 1) in
  Z.of_nat (length (pool p)) <= 1 /\
  (Z.of_nat (length (pool p)) = 1 -> pool (release 1 p) = pool p).
Proof.
  apply (free_list_never_exceeds_max 1
           [Acquire 0 0 0; Acquire 0 1 1; Release 0; Release 1; Release 1; Release 1] 1).
  lia.
Defined.

(** [release] is idempotent: releasing a context a second time, with nothing
    in between, changes nothing. *)
Theorem release_twice_is_release_once (id : nat) (p : ContextPool) :
  release id (release id p) = release id p.
Proof.
  unfold release at 2 3.
  destruct (heap p !! id) as [c|] eqn:E.
  - destruct (not_inUse c) eqn:Hu.
    + unfold release. by rewrite E, Hu.
    + destruct (Z.of_nat (length (pool p)) <? maxSize p);
        unfold release; simpl; by rewrite lookup_insert_eq.
  - unfold release. by rewrite E.
Qed.



(** Releasing the same context twice pushes it once. *)
Example double_release_pushes_once :
  pool (run [Acquire 0 0 0; Release 0; Release 0] (newPool 10)) = [0%nat].
Proof. vm_compute. reflexivity. Qed.

End PoolProperties.

(** ** Middleware dispatch *)

Section DispatchProperties.

Import Application Conditions.

(** C6. For a chain [A, B, C] where [A] and [B] run some code, await their
    continuation once and run some more code, and [C] does not call its
    continuation, [executeMiddleware] runs, in this order: the code of [A]
    before its continuation, that of [B] before its continuation, [C], the
    code of [B] after its continuation, the code of [A] after its continuation
    (each step running only if none before it threw). *)
Theorem onion_order (preA postA preB postB c : Action)
    (rq rs : list HookFunction) (eh el : list ErrorHookFunction)
    (lg : Logger.Logger) (timing : bool) (s : St) :
  executeMiddleware
    (mkApp [Scenarios.onion preA postA; Scenarios.onion preB postB; Act c]
       rq rs eh lg timing el) s
  = (preA >> preB >> c >> postB >> postA) s.
Proof.
  unfold executeMiddleware, andThen. simpl.
  destruct (preA s) as [[|e] s1]; simpl; [|reflexivity].
  destruct (preB s1) as [[|e] s2]; simpl; [|reflexivity].
  destruct (c s2) as [[|e] s3]; simpl; [|reflexivity].
  destruct (postB s3) as [[|e] s4]; simpl; [|reflexivity].
  destruct (postA s4) as [[|e] s5]; reflexivity.
Qed.

Example onion_trace :
  trace (snd (executeMiddleware
    (Scenarios.appWith
       [Scenarios.onion (Scenarios.tell "A-before") (Scenarios.tell "A-after");
        Scenarios.onion (Scenarios.tell "B-before") (Scenarios.tell "B-after");
        Act (Scenarios.tell "C")] [])
    Scenarios.freshSt))
  = ["A-before"; "B-before"; "C"; "B-after"; "A-after"].
Proof. reflexivity. Qed.





End DispatchProperties.

(** ** The request entry point *)

Section RequestProperties.

Import Application Conditions.














Lemma same_set_error s status message :
  same s (ctx_set_body (errorBody message) (ctx_set_status status s)).
Proof.
  unfold ctx_set_body, ctx_set_status, Response.set_body, Response.set_status.
  by repeat split.
Qed.




Lemma quiet_function label fn : quiet (Transports.Function label fn).
Proof. intros entry i e. simpl. destruct (fn entry); discriminate. Qed.

Lemma runErrorHooks_app pre post err s :
  runErrorHooks (pre ++ post) err s =
  (runErrorHooks pre err >> runErrorHooks post err) s.
Proof.
  revert s. induction pre as [|h pre IH]; intros s; simpl.
  - reflexivity.
  - unfold andThen in *. destruct (h err s) as [[|e] s1]; [apply IH|reflexivity].
Qed.

(** Hooks run in registration order: a hook registered later runs after all
    those registered before it. *)
Lemma onError_runs_last A fn err s :
  runErrorHooks (errorHooks (onError fn A)) err s =
  (runErrorHooks (errorHooks A) err >> fn err) s.
Proof.
  simpl. rewrite runErrorHooks_app. unfold andThen.
  destruct (runErrorHooks (errorHooks A) err s) as [[|e] s1]; [|reflexivity].
  simpl. unfold andThen, pass. by destruct (fn err s1) as [[|e] s2].
Qed.





(** C4, as the code has it. The error phase first classifies the error (its
    [status], else its [statusCode], else 500, where 0 and [undefined] count as
    absent; its message if [expose] is set, else a generic one), then logs the
    error, then runs the error hooks, which start from the context as the
    failed phase left it, and only then assigns the error status and body to
    the context and responds. *)
Theorem error_phase_order (A : KoaXApplication) (o : ErrorObj) (s s2 : St)
    (lg : Logger.Logger) (i1 : Transports.Io) :
  Context.log (ctx s) = Some lg ->
  Logger.log_error lg (Obj o) "Request failed" (io s) = (Ok, i1) ->
  executeErrorHooks A (Obj o) (set_io i1 s) = (Ok, s2) ->
  let s3 := ctx_set_body (errorBody (errorMessage o))
              (ctx_set_status (errorStatus o) s2) in
  errorStatus o =
    (if truthy (Js.status o) then default 500 (Js.status o)
     else if truthy (Js.statusCode o) then default 500 (Js.statusCode o)
     else 500) /\
  errorMessage o =
    (if Js.expose o then Js.message o else "Internal Server Error") /\
  ctx_status (set_io i1 s) = ctx_status s /\
  ctx_body (set_io i1 s) = ctx_body s /\
  handleError A (Obj o) s = (sendIfOpen >> emitError A (Obj o)) s3 /\
  ctx_status s3 = errorStatus o /\
  ctx_body s3 = errorBody (errorMessage o).
Proof.
  intros Hlog Herr Hhooks s3.
  split.
  { unfold errorStatus, or_else.
    destruct (truthy (Js.status o)); [reflexivity|].
    destruct (truthy (Js.statusCode o)); reflexivity. }
  split; [reflexivity|]. split; [reflexivity|]. split; [reflexivity|].
  split.
  - unfold handleError.
    unfold andThen at 1. unfold ctx_log_error at 1. rewrite Hlog, Herr.
    unfold andThen at 1. rewrite Hhooks.
    unfold andThen at 1. reflexivity.
  - subst s3. unfold ctx_status, ctx_body, ctx_set_body, ctx_set_status. simpl.
    split; reflexivity.
Qed.

(** A 400 thrown by the only middleware, one error hook that records the
    status it sees, console logging. *)
Lemma error_phase_order_witness :
  let o := mkErrorObj true "Error" "bad input" (Some 400) None true in
  let i1 := snd (Logger.log_error Scenarios.consoleLogger (Obj o) "Request failed"
                   (io Scenarios.loggedSt)) in
  let s2 := snd (executeErrorHooks Scenarios.probedApp (Obj o)
                   (set_io i1 Scenarios.loggedSt)) in
  let s3 := ctx_set_body (errorBody (errorMessage o))
              (ctx_set_status (errorStatus o) s2) in
  errorStatus o =
    (if truthy (Js.status o) then default 500 (Js.status o)
     else if truthy (Js.statusCode o) then default 500 (Js.statusCode o)
     else 500) /\
  errorMessage o =
    (if Js.expose o then Js.message o else "Internal Server Error") /\
  ctx_status (set_io i1 Scenarios.loggedSt) = ctx_status Scenarios.loggedSt /\
  ctx_body (set_io i1 Scenarios.loggedSt) = ctx_body Scenarios.loggedSt /\
  handleError Scenarios.probedApp (Obj o) Scenarios.loggedSt =
    (sendIfOpen >> emitError Scenarios.probedApp (Obj o)) s3 /\
  ctx_status s3 = errorStatus o /\
  ctx_body s3 = errorBody (errorMessage o).
Proof.
  intros o i1 s2.
  apply (error_phase_order Scenarios.probedApp o Scenarios.loggedSt s2
           Scenarios.consoleLogger i1); reflexivity.
Defined.

(** C4 as stated fails: the error hook runs before the error status is
    assigned. For a 400 thrown by a middleware it observes the 404 of the
    untouched response; the context ends with status 400, which is what is
    sent. *)
Lemma error_hook_sees_earlier_status :
  let r := handleRequest Scenarios.probedApp 0 0 0 (Context.newPool 1000)
             Response.freshRaw Transports.emptyIo 0 in
  trace (snd r) = ["404"] /\
  ctx_status (snd r) = 400 /\
  Response.statusCode (raw (snd r)) = 400 /\
  Response.ended (raw (snd r)) = [Some (errorJson "bad input")].
Proof. vm_compute. repeat split. Qed.























Example failing_request_is_answered_once :
  let r := handleRequest (Scenarios.carefulApp Scenarios.badInput) 0 0 0
             (Context.newPool 1000) Response.freshRaw Transports.emptyIo 0 in
  Response.ended (raw (snd r)) = [Some (errorJson "bad input")] /\
  Response.statusCode (raw (snd r)) = 400 /\
  trace (snd r) = ["request"; "A-before"; "error event"].
Proof. vm_compute. repeat split. Qed.

Example completed_request_is_answered_once :
  let s' := snd (handleAcquired Scenarios.politeApp Scenarios.loggedSt) in
  Response.ended (raw s') = [Some "hi"] /\
  ctx_status s' = 200 /\
  trace s' = ["request"; "A-before"; "A-after"; "response"].
Proof. vm_compute. repeat split. Qed.

(** The bound on the status is needed: for [ctx.throw(1000)] the error phase
    assigns 1000 to [res.statusCode], node refuses to write the head, [send]
    throws and the request is left without a response. *)
Example refused_status_leaves_request_unanswered :
  let r := handleRequest (Scenarios.carefulApp Scenarios.tooFar) 0 0 0
             (Context.newPool 1000) Response.freshRaw Transports.emptyIo 0 in
  Response.ended (raw (snd r)) = [] /\
  Response.writableEnded (raw (snd r)) = false /\
  fst (fst r) = Fail (rangeError "Invalid status code: 1000").
Proof. vm_compute. repeat split. Qed.


(** The same holds when the context already has a logger bound: a thrown
    [undefined] never reaches the log call. *)
Example undefined_error_leaves_request_unanswered :
  let h := handleAcquired Scenarios.throwsUndefined Scenarios.loggedSt in
  Response.ended (raw (snd h)) = [] /\
  fst h =
    Fail (typeError "Cannot read properties of undefined (reading 'status')").
Proof. vm_compute. repeat split. Qed.

(** With the contexts the pool hands out, [ctx.log] is unbound: under the
    default options (timing on) [ctx.log.info] throws, then [ctx.log.error]
    throws inside [handleError], and the request gets no response. *)
Example unbound_logger_leaves_request_unanswered :
  let r := handleRequest Scenarios.politeApp 0 0 0 (Context.newPool 1000)
             Response.freshRaw Transports.emptyIo 0 in
  Response.ended (raw (snd r)) = [] /\
  fst (fst r) =
    Fail (typeError "Cannot read properties of undefined (reading 'error')").
Proof. vm_compute. repeat split. Qed.

End RequestProperties.

(** * Further properties of the code *)

(** ** Transport trees *)

Section TransportTreeProperties.

Import Transports MoreConditions.

(** [write] never throws to its caller where nothing stands unguarded
    between the entry and the caller: it returns, or returns a promise that
    rejects. [MultiTransport] and [FunctionTransport] catch whatever happens
    below them; a filter passes on what its inner transport throws. *)
Theorem guarded_write_never_throws (t : Transport) (entry : LogEntry) (io : Io) :
  guarded entry io t ->
  fst (write t entry io) = Returned \/
  exists err, fst (write t entry io) = Rejected err.
Proof.
  induction t as [pretty|ts|label fn|inner IH pred|u]; intros Hg; simpl in *.
  - left. unfold console_write. rewrite Hg. by destruct (atLeast50 io (level entry)).
  - by left.
  - left. by destruct (fn entry).
  - destruct (pred entry) as [| |e]; simpl; [|by left|done].
    specialize (IH Hg).
    destruct (write inner entry io) as [[|e|e] io1]; simpl in *.
    + by left.
    + destruct IH as [?|[? ?]]; discriminate.
    + by left.
  - destruct (uwrite u entry) as [|e|e]; [by left|by destruct (Hg e)|right; by exists e].
Qed.

(** A level filter over a fan-out whose first child always throws, at an
    entry of level 50, which the filter lets through. *)
Lemma guarded_write_never_throws_witness :
  let t := Filter Scenarios.multiAB Scenarios.atErrorLevel in
  let entry := Scenarios.entryAt 50 "failed" in
  fst (write t entry emptyIo) = Returned \/
  exists err, fst (write t entry emptyIo) = Rejected err.
Proof.
  intros t entry.
  apply (guarded_write_never_throws t entry emptyIo).
  exact I.
Defined.

(** A console transport on its own is not guarded: an entry with a BigInt
    among its properties makes [JSON.stringify] throw, and the exception goes
    through [Logger.log] to the caller; wrapped in a [MultiTransport] it is
    reported on [console.error] instead. *)
Example console_write_throws_on_bigint :
  let data : gmap string Value := {[ "id" := VBigInt 1 ]} in
  fst (Logger.log Scenarios.consoleLogger Logger.info "hello" data emptyIo)
    = Fail cannotSerialise /\
  Logger.log Scenarios.sinkLogger Logger.info "hello" data emptyIo
    = (Ok, io_consoleError "Transport write error:" cannotSerialise emptyIo).
Proof. vm_compute. by split. Qed.

Lemma promise_all_map_flush_calls (us : list UserTransport) pending io :
  Forall (fun u => forall e, uflush u <> Some (Threw e)) us ->
  calls (snd (promise_all_map has_flush flush (map User us) pending io)) =
    calls io ++ flushCalls us /\
  (Forall (fun u => forall e, uflush u <> Some (Rejected e)) us ->
   fst (promise_all_map has_flush flush (map User us) pending io) =
     match pending with Some e => Rejected e | None => Returned end).
Proof.
  intros Hall. revert pending io.
  induction Hall as [|u us Hu _ IH]; intros pending io.
  - destruct pending; simpl; rewrite app_nil_r; by split.
  - cbn [map promise_all_map has_flush flush flushCalls omap].
    destruct (uflush u) as [[|e|e]|] eqn:E.
    + rewrite bool_decide_eq_true_2 by eauto.
      destruct (IH pending (io_call (CFlush (uname u)) io)) as [Hc Hr].
      split.
      * rewrite Hc. unfold flushCalls. simpl. rewrite E. simpl.
        by rewrite <- app_assoc.
      * intros Hrej. apply Forall_cons in Hrej as [_ Hrej]. by apply Hr.
    + by destruct (Hu e).
    + rewrite bool_decide_eq_true_2 by eauto.
      destruct (IH (match pending with Some p => Some p | None => Some e end)
                  (io_call (CFlush (uname u)) io)) as [Hc Hr].
      split.
      * rewrite Hc. unfold flushCalls. simpl. rewrite E. simpl.
        by rewrite <- app_assoc.
      * intros Hrej. apply Forall_cons in Hrej as [Hrej _]. by destruct (Hrej e).
    + rewrite bool_decide_eq_false_2 by (intros [? ?]; done).
      destruct (IH pending io) as [Hc Hr].
      split; [rewrite Hc; unfold flushCalls; simpl; by rewrite E|].
      intros Hrej. apply Forall_cons in Hrej as [_ Hrej]. by apply Hr.
Qed.

(** As long as no child throws from [flush], [MultiTransport.flush] calls
    [flush] on every child that defines it, once and in order, and skips the
    children that do not; if moreover no child's promise rejects, its own
    promise resolves. *)
Theorem multi_flush_reaches_every_child (us : list UserTransport) (io : Io) :
  Forall (fun u => forall e, uflush u <> Some (Threw e)) us ->
  calls (snd (flush (Multi (map User us)) io)) = calls io ++ flushCalls us /\
  (Forall (fun u => forall e, uflush u <> Some (Rejected e)) us ->
   fst (flush (Multi (map User us)) io) = Returned).
Proof.
  intros Hall. cbn [flush].
  destruct (promise_all_map_flush_calls us None io Hall) as [Hc Hr].
  split; [exact Hc | exact Hr].
Qed.

(** A child without [flush] between two that have it. *)
Lemma multi_flush_reaches_every_child_witness :
  let quietOne := mkUserTransport "Q" (fun _ => Returned) None None in
  let us := [Scenarios.transportB; quietOne; Scenarios.transportB] in
  calls (snd (flush (Multi (map User us)) emptyIo)) =
    calls emptyIo ++ flushCalls us /\
  (Forall (fun u => forall e, uflush u <> Some (Rejected e)) us ->
   fst (flush (Multi (map User us)) emptyIo) = Returned).
Proof.
  intros quietOne us.
  apply (multi_flush_reaches_every_child us emptyIo).
  repeat constructor; intros e; discriminate.
Defined.

End TransportTreeProperties.

(** ** The buffering transports *)

Section FileTransportProperties.

Import FileTransport.

Lemma flush_accounts t ls : accountsFor t ls -> accountsFor (flush t) ls.
Proof.
  intros H. pose proof H as (He & Hl & batches & Hs & Hne & Hc). unfold flush.
  destruct (buffer t) as [|l buf] eqn:E; [exact H|].
  unfold stream_write. rewrite He. simpl. split; [done|]. split; [done|].
  exists (batches ++ [l :: buf]). repeat split.
  - by rewrite Hs, map_app.
  - apply Forall_app. split; [done|]. by constructor.
  - rewrite concat_app. simpl. by rewrite !app_nil_r.
Qed.

Lemma write_accounts t ls line :
  accountsFor t ls -> accountsFor (write line t) (ls ++ [line]).
Proof.
  intros (He & Hl & batches & Hs & Hne & Hc). unfold write.
  match goal with |- accountsFor (if ?b then _ else _) _ => destruct b end.
  - apply flush_accounts. repeat split; [done..|].
    exists batches. repeat split; [done..|]. simpl. by rewrite app_assoc, Hc.
  - repeat split; [done..|].
    exists batches. repeat split; [done..|]. simpl. by rewrite app_assoc, Hc.
Qed.

Lemma step_accounts t ls op :
  accountsFor t ls -> accountsFor (step t op) (ls ++ written [op]).
Proof.
  intros H. destruct op as [line| |]; simpl.
  - by apply write_accounts.
  - rewrite app_nil_r. by apply flush_accounts.
  - rewrite app_nil_r. unfold tick. destruct (flushInterval t); [by apply flush_accounts|done].
Qed.

Lemma written_app ops1 ops2 : written (ops1 ++ ops2) = written ops1 ++ written ops2.
Proof. unfold written. apply omap_app. Qed.

Lemma run_accounts ops t ls :
  accountsFor t ls -> accountsFor (run ops t) (ls ++ written ops).
Proof.
  revert t ls. induction ops as [|op ops IH]; intros t ls H.
  - simpl. by rewrite app_nil_r.
  - change (written (op :: ops)) with (written ([op] ++ ops)).
    rewrite (written_app [op] ops), app_assoc.
    apply (IH (step t op)). by apply step_accounts.
Qed.

(** Writes reach the file first in, first out and nothing is lost or
    duplicated: after any sequence of writes, explicit flushes and timer
    ticks, the chunks handed to [stream.write] are the texts of non-empty
    batches, and these batches, followed by what is still buffered, are
    exactly the lines written, in order. *)
Theorem file_writes_in_order (size : option Z) (ops : list Op) :
  exists batches,
    stream (run ops (construct size)) = map lines batches /\
    Forall (fun b => b <> []) batches /\
    concat batches ++ buffer (run ops (construct size)) = written ops.
Proof.
  destruct (run_accounts ops (construct size) []) as (_ & _ & H); [|exact H].
  repeat split. by exists [].
Qed.

(** [close] flushes what is buffered, ends the stream and stops the timer:
    afterwards the buffer is empty, every line written is in the chunks, and
    a late timer tick does nothing. *)
Theorem file_close_flushes_everything (size : option Z) (ops : list Op) :
  let t := close (run ops (construct size)) in
  buffer t = [] /\ streamEnded t = true /\ tick t = t /\
  exists batches, stream t = map lines batches /\ concat batches = written ops.
Proof.
  intros t. subst t.
  destruct (run_accounts ops (construct size) []) as (He & Hl & batches & Hs & _ & Hc);
    [repeat split; by exists []|].
  simpl in Hc. unfold close, flush, stream_write. simpl. rewrite He.
  destruct (buffer (run ops (construct size))) as [|l buf] eqn:E; simpl.
  - repeat split. exists batches. split; [done|]. by rewrite app_nil_r in Hc.
  - repeat split. exists (batches ++ [l :: buf]). split.
    + by rewrite Hs, map_app.
    + rewrite concat_app. simpl. by rewrite app_nil_r.
Qed.

Lemma step_keeps_threshold t op : bufferSize (step t op) = bufferSize t.
Proof.
  destruct op as [line| |]; simpl; unfold write, tick, flush, stream_write; simpl;
    repeat match goal with
           | |- context [if ?b then _ else _] => destruct b; simpl
           | |- context [match ?l with [] => _ | _ :: _ => _ end] => destruct l; simpl
           end; reflexivity.
Qed.

Lemma step_below_threshold t op :
  Z.of_nat (length (buffer t)) < Z.max 1 (bufferSize t) ->
  Z.of_nat (length (buffer (step t op))) < Z.max 1 (bufferSize t).
Proof.
  intros H.
  assert (Hf : forall t', Z.of_nat (length (buffer t')) < Z.max 1 (bufferSize t) ->
                 Z.of_nat (length (buffer (flush t'))) < Z.max 1 (bufferSize t)).
  { intros t' H'. unfold flush. destruct (buffer t') eqn:E; [by rewrite E|simpl; lia]. }
  destruct op as [line| |]; simpl.
  - unfold write. simpl.
    destruct (bufferSize t <=? Z.of_nat (length (buffer t ++ [line]))) eqn:E.
    + unfold flush. simpl. destruct (buffer t ++ [line]); simpl; lia.
    + apply Z.leb_gt in E. simpl. lia.
  - by apply Hf.
  - unfold tick. destruct (flushInterval t); [by apply Hf|done].
Qed.

(** The buffer never reaches the threshold between two operations: after any
    sequence of writes, flushes and ticks it holds fewer than [bufferSize]
    lines (fewer than one, that is none, when the threshold is not
    positive). *)
Theorem file_buffer_stays_below_threshold (size : option Z) (ops : list Op) :
  let t := run ops (construct size) in
  bufferSize t = thresholdOf size /\
  Z.of_nat (length (buffer t)) < Z.max 1 (bufferSize t).
Proof.
  intros t. subst t.
  assert (H : forall ops t0,
             Z.of_nat (length (buffer t0)) < Z.max 1 (bufferSize t0) ->
             bufferSize (run ops t0) = bufferSize t0 /\
             Z.of_nat (length (buffer (run ops t0))) < Z.max 1 (bufferSize t0)).
  { clear. induction ops as [|op ops IH]; intros t0 H0; simpl; [done|].
    pose proof (step_keeps_threshold t0 op) as Hk.
    pose proof (step_below_threshold t0 op H0) as Hb.
    destruct (IH (step t0 op)) as [E1 E2]; [by rewrite Hk|].
    rewrite Hk in E1, E2. done. }
  destruct (H ops (construct size)) as [E1 E2]; [simpl; lia|].
  split; [exact E1|]. by rewrite E1 in *.
Qed.

Lemma writes_below_threshold (n : Z) (ls : list string) t :
  buffer t = [] -> bufferSize t = n -> Z.of_nat (length ls) < n ->
  run (map Write ls) t =
    mkFileTransport ls n (stream t) (flushInterval t) (streamEnded t) (lateWrites t).
Proof.
  intros Hb Hn Hlen.
  assert (H : forall ls' pre t',
            buffer t' = pre -> bufferSize t' = n ->
            Z.of_nat (length (pre ++ ls')) < n ->
            run (map Write ls') t' =
              mkFileTransport (pre ++ ls') n (stream t') (flushInterval t')
                (streamEnded t') (lateWrites t')).
  { clear. induction ls' as [|l ls' IH]; intros pre t' Hb Hn Hlen; simpl.
    - rewrite app_nil_r. destruct t'; simpl in *; by subst.
    - rewrite (IH (pre ++ [l])).
      + unfold write. simpl. rewrite Hb, Hn.
        rewrite length_app in Hlen. simpl in Hlen.
        destruct (n <=? Z.of_nat (length (pre ++ [l]))) eqn:E.
        * apply Z.leb_le in E. rewrite length_app in E. simpl in E. lia.
        * simpl. by rewrite <- app_assoc.
      + unfold write. simpl. rewrite Hb, Hn.
        rewrite length_app in Hlen. simpl in Hlen.
        destruct (n <=? Z.of_nat (length (pre ++ [l]))) eqn:E; [|done].
        apply Z.leb_le in E. rewrite length_app in E. simpl in E. lia.
      + unfold write. simpl. rewrite Hb, Hn.
        rewrite length_app in Hlen. simpl in Hlen.
        destruct (n <=? Z.of_nat (length (pre ++ [l]))) eqn:E; [|done].
        apply Z.leb_le in E. rewrite length_app in E. simpl in E. lia.
      + by rewrite <- app_assoc. }
  apply (H ls [] t); by rewrite ?app_nil_l.
Qed.

(** A fresh transport with threshold [n] that receives exactly [n] writes
    hands the stream exactly one chunk, the [n] lines in order, on the last
    write and not before, and starts again from an empty buffer. *)
Theorem file_threshold_triggers_one_flush (n : Z) (ls : list string) (last : string) :
  0 < n -> Z.of_nat (length ls) + 1 = n ->
  stream (run (map Write ls) (construct (Some n))) = [] /\
  buffer (run (map Write ls) (construct (Some n))) = ls /\
  stream (run (map Write (ls ++ [last])) (construct (Some n))) = [lines (ls ++ [last])] /\
  buffer (run (map Write (ls ++ [last])) (construct (Some n))) = [].
Proof.
  intros Hn Hlen.
  assert (Ht : thresholdOf (Some n) = n).
  { unfold thresholdOf, or_else, truthy. destruct (n =? 0) eqn:E; [|done].
    apply Z.eqb_eq in E. lia. }
  assert (Hrun := writes_below_threshold n ls (construct (Some n)) eq_refl Ht ltac:(lia)).
  rewrite map_app. unfold run in *. rewrite fold_left_app. rewrite Hrun. simpl.
  split; [done|]. split; [done|].
  unfold write. simpl.
  destruct (n <=? Z.of_nat (length (ls ++ [last]))) eqn:E.
  - unfold flush. simpl. destruct (ls ++ [last]) eqn:E2; [by destruct ls|]. done.
  - apply Z.leb_gt in E. rewrite length_app in E. simpl in E. lia.
Qed.

(** Threshold 3, writes [a], [b], [c]. *)
Lemma file_threshold_triggers_one_flush_witness :
  stream (run (map Write ["a"; "b"]) (construct (Some 3))) = [] /\
  buffer (run (map Write ["a"; "b"]) (construct (Some 3))) = ["a"; "b"] /\
  stream (run (map Write (["a"; "b"] ++ ["c"])) (construct (Some 3)))
    = [lines (["a"; "b"] ++ ["c"])] /\
  buffer (run (map Write (["a"; "b"] ++ ["c"])) (construct (Some 3))) = [].
Proof.
  apply (file_threshold_triggers_one_flush 3 ["a"; "b"] "c"); reflexivity.
Defined.

End FileTransportProperties.

Section HttpTransportProperties.

Import HttpTransport.

Variable fetch : list Transports.LogEntry -> Completion.

Lemma http_flush_returns t io :
  fst (fst (flush fetch t io)) = Returned.
Proof.
  unfold flush. destruct (buffer t); [done|].
  by destruct (await (fetch _)).
Qed.

Lemma failedPosts_app b1 b2 :
  failedPosts fetch (b1 ++ b2) = failedPosts fetch b1 ++ failedPosts fetch b2.
Proof. unfold failedPosts. apply List.filter_app. Qed.

Lemma http_flush_accounts s0 t io es before interval :
  httpAccountsFor fetch s0 (t, io) es before ->
  httpAccountsFor fetch s0
    (let '(_, t1, io1) :=
       flush fetch (mkHttpTransport (buffer t) (bufferSize t) (posted t) interval) io in
     (t1, io1)) es before.
Proof.
  intros (batches & Hp & Hne & Hc & Hce & Hu & Hcalls). simpl in *.
  unfold flush. simpl.
  destruct (buffer t) as [|e buf] eqn:E.
  - exists batches. simpl. by repeat split.
  - exists (batches ++ [e :: buf]).
    assert (Hfail : failedPosts fetch (batches ++ [e :: buf]) =
                    failedPosts fetch batches ++ failedPosts fetch [e :: buf])
      by apply failedPosts_app.
    destruct (await (fetch (e :: buf))) as [|err] eqn:Ef; simpl;
      (split; [by rewrite Hp, app_assoc|]);
      (split; [apply Forall_app; split; [done|by constructor]|]);
      (split; [rewrite concat_app; simpl; by rewrite !app_nil_r|]);
      rewrite Hfail, length_app; unfold failedPosts at 2; simpl; rewrite Ef; simpl.
    + repeat split; [lia|done..].
    + rewrite length_app. simpl. repeat split; [lia|done..].
Qed.

Lemma http_step_accounts s0 s es before op :
  httpAccountsFor fetch s0 s es before ->
  httpAccountsFor fetch s0 (step fetch s op) (es ++ written [op]) before.
Proof.
  intros H. destruct s as [t io]. destruct op as [entry| | |]; simpl.
  - unfold write.
    match goal with |- context [if ?b then _ else _] => destruct b end.
    + pose proof (http_flush_accounts s0
                    (mkHttpTransport (buffer t ++ [entry]) (bufferSize t) (posted t)
                       (flushInterval t)) io (es ++ [entry]) before (flushInterval t)) as Hf.
      simpl in Hf.
      pose proof (http_flush_returns
                    (mkHttpTransport (buffer t ++ [entry]) (bufferSize t) (posted t)
                       (flushInterval t)) io) as Hr.
      destruct (flush fetch _ io) as [[c t2] io2]. simpl in Hr. subst c.
      apply Hf. destruct H as (batches & Hp & Hne & Hc & Hrest). simpl in *.
      exists batches. simpl. repeat split; try tauto. by rewrite app_assoc, Hc.
    + destruct H as (batches & Hp & Hne & Hc & Hrest). simpl in *.
      exists batches. simpl. repeat split; try tauto. by rewrite app_assoc, Hc.
  - rewrite app_nil_r.
    pose proof (http_flush_accounts s0 t io es before (flushInterval t) H) as Hf.
    destruct t; exact Hf.
  - rewrite app_nil_r. unfold tick. destruct (flushInterval t) eqn:Ei; [|done].
    pose proof (http_flush_accounts s0 t io es before (flushInterval t) H) as Hf.
    pose proof (http_flush_returns t io) as Hr.
    destruct t; simpl in *.
    destruct (flush fetch _ io) as [[c t2] io2]. simpl in Hr. subst c. exact Hf.
  - rewrite app_nil_r. unfold close.
    pose proof (http_flush_accounts s0 t io es before false H) as Hf.
    pose proof (http_flush_returns
                  (mkHttpTransport (buffer t) (bufferSize t) (posted t) false) io) as Hr.
    destruct (flush fetch _ io) as [[c t2] io2]. simpl in Hr. subst c. exact Hf.
Qed.

Lemma http_written_app ops1 ops2 :
  written (ops1 ++ ops2) = written ops1 ++ written ops2.
Proof. unfold written. apply omap_app. Qed.

Lemma http_run_accounts s0 ops s es before :
  httpAccountsFor fetch s0 s es before ->
  httpAccountsFor fetch s0 (run fetch ops s) (es ++ written ops) before.
Proof.
  revert s es. induction ops as [|op ops IH]; intros s es H.
  - simpl. by rewrite app_nil_r.
  - change (written (op :: ops)) with (written ([op] ++ ops)).
    rewrite (http_written_app [op] ops), app_assoc.
    apply (IH (step fetch s op)). by apply http_step_accounts.
Qed.

(** Whatever the outbound calls do, [flush] never rejects and never throws,
    and each entry written is handed to [fetch] exactly once, in order, in a
    non-empty batch: the batches posted, followed by what is still buffered,
    are exactly the entries written. A batch whose post fails is reported once
    on [console.error] and is not posted again. *)
Theorem http_entries_posted_once (size : option Z) (ops : list Op) (io : Transports.Io) :
  let s := run fetch ops (construct size, io) in
  (forall t i, fst (fst (flush fetch t i)) = Returned) /\
  Forall (fun b => b <> []) (posted (fst s)) /\
  concat (posted (fst s)) ++ buffer (fst s) = written ops /\
  length (Transports.consoleError (snd s)) =
    (length (Transports.consoleError io) + length (failedPosts fetch (posted (fst s))))%nat /\
  Transports.unhandled (snd s) = Transports.unhandled io.
Proof.
  intros s. subst s. split; [apply http_flush_returns|].
  destruct (http_run_accounts io ops (construct size, io) [] [])
    as (batches & Hp & Hne & Hc & Hce & Hu & _).
  { exists []. simpl. repeat split; try done; lia. }
  simpl in Hp. rewrite Hp. done.
Qed.

End HttpTransportProperties.

(** ** The logger interface *)

Section LoggerApiProperties.

Import Logger LoggerApi.

Lemma counterAfter_closed (n : nat) (c : Z) :
  0 <= c < 1000000 -> counterAfter n c = (c + Z.of_nat n) `mod` 1000000.
Proof.
  intros Hc. induction n as [|n IH].
  - simpl. rewrite Z.add_0_r, Z.mod_small; lia.
  - cbn [counterAfter generateRequestId snd]. rewrite IH.
    rewrite Z.rem_mod_nonneg by (pose proof (Z.mod_pos_bound (c + Z.of_nat n) 1000000); lia).
    rewrite Zplus_mod_idemp_l. f_equal. lia.
Qed.

(** The request counter stays within 0..999999, and two identifiers
    generated in the same millisecond fewer than a million calls apart are
    different texts. *)
Theorem request_ids_distinct_within_a_million (c clock : Z) (n k : nat) :
  0 <= c < 1000000 ->
  0 < Z.of_nat k < 1000000 ->
  0 <= counterAfter n c < 1000000 /\
  fst (generateRequestId clock (counterAfter n c)) <>
  fst (generateRequestId clock (counterAfter (n + k) c)) .
Proof.
  intros Hc Hk. rewrite !counterAfter_closed by done.
  split; [apply Z.mod_pos_bound; lia|].
  unfold generateRequestId. cbn [fst]. intros Heq.
  apply String.app_inj, String.app_inj in Heq.
  apply (inj pretty) in Heq.
  rewrite !Z.rem_mod_nonneg in Heq
    by (try lia; match goal with |- 0 <= ?a `mod` ?b + 1 =>
          pose proof (Z.mod_pos_bound a b); lia end).
  rewrite !Zplus_mod_idemp_l in Heq.
  rewrite Nat2Z.inj_add in Heq.
  assert (Hd : (Z.of_nat k) `mod` 1000000 = 0).
  { replace (Z.of_nat k) with
      ((c + (Z.of_nat n + Z.of_nat k) + 1) - (c + Z.of_nat n + 1)) by lia.
    rewrite Zminus_mod, <- Heq, Z.sub_diag. reflexivity. }
  rewrite Z.mod_small in Hd; lia.
Qed.

(** From the counter's last value before it wraps: the next three
    identifiers of one millisecond. *)
Lemma request_ids_distinct_within_a_million_witness :
  0 <= counterAfter 1 999999 < 1000000 /\
  fst (generateRequestId 1700000000000 (counterAfter 1 999999)) <>
  fst (generateRequestId 1700000000000 (counterAfter (1 + 2) 999999)).
Proof.
  apply (request_ids_distinct_within_a_million 999999 1700000000000 1 2); lia.
Defined.

End LoggerApiProperties.

(** ** Sending, headers and type of the response *)

Section ResponseSendProperties.

Import Response ResponseHeaders.

(** Once [send] has returned, the response is final: a later [send], with
    whatever body, returns without touching the raw response. *)
Theorem send_after_send_does_nothing (w w' : KoaXResponse) (r r1 : ServerResponse) :
  send w r = (Ok, r1) -> send w' r1 = (Ok, r1).
Proof.
  intros H.
  destruct (send_outcomes w r) as [(_ & _ & Hw & _) | (_ & Hw & Hh & _ & Hg)];
    rewrite H in *; simpl in *.
  - unfold send. by rewrite Hw.
  - unfold send. by rewrite Hw, Hh, (Hg eq_refl).
Qed.

Lemma send_after_send_does_nothing_witness :
  send (mkKoaXResponse (BString "again") 200 None true)
       (snd (send (mkKoaXResponse (BString "hi") 200 None true) freshRaw))
  = (Ok, snd (send (mkKoaXResponse (BString "hi") 200 None true) freshRaw)).
Proof.
  apply (send_after_send_does_nothing (mkKoaXResponse (BString "hi") 200 None true)
           _ freshRaw).
  reflexivity.
Defined.



(** A status code node refuses: nothing is sent and [send] throws. *)
Example send_refused_status :
  let w := mkKoaXResponse (BString "hi") 1000 None true in
  send w (raw_setStatusCode 1000 freshRaw) =
    (Fail (rangeError "Invalid status code: 1000"),
     withHeader "Content-Length" "2" (raw_setStatusCode 1000 freshRaw)).
Proof. reflexivity. Qed.

(** Headers can be set and removed until they are sent, and not after, and
    their names are matched without regard to case. On a response whose
    headers are not sent, a header set under a name that is an HTTP token,
    with a value free of control characters, reads back under every spelling
    of the name, leaves the headers of other names alone and is gone once
    removed; with another name or value [set] throws and changes nothing.
    Once the headers are sent, [set] and [remove] change nothing. *)
Theorem headers_frozen_once_sent (field other val : string) (r : ServerResponse) :
  if headersSent r
  then set field val r = (Ok, r) /\ remove field r = r
  else if validHeaderName field && validHeaderValue val
  then exists r',
         set field val r = (Ok, r') /\
         (forall spelling, toLowerCase spelling = toLowerCase field ->
                           get spelling r' = Some val) /\
         (toLowerCase other <> toLowerCase field -> get other r' = get other r) /\
         get field (remove field r') = None
  else exists err, set field val r = (Fail err, r).
Proof.
  unfold get, raw_getHeader, Response.set, remove, raw_setHeader.
  destruct (headersSent r) eqn:H; simpl; [done|].
  destruct (validHeaderName field); simpl; [|by eexists].
  destruct (validHeaderValue val); simpl; [|by eexists].
  eexists. split; [reflexivity|]. cbn -[toLowerCase]. split; [|split].
  - intros spelling ->. apply lookup_insert_eq.
  - intros Hne. by apply lookup_insert_ne.
  - apply lookup_delete_eq.
Qed.

Lemma beforeSemicolon_stops (t rest : string) :
  beforeSemicolon t = t ->
  beforeSemicolon (t +:+ String ";"%char rest) = t.
Proof.
  induction t as [|c t IH]; simpl; [done|].
  destruct (Ascii.eqb c ";"); [done|]. intros [= H]. by rewrite IH.
Qed.

Lemma allUnits_app ok (a b : string) :
  allUnits ok (a +:+ b) = allUnits ok a && allUnits ok b.
Proof. induction a as [|c a IH]; simpl; [done|]. by rewrite IH, andb_assoc. Qed.

(** The type getter drops the parameters of the content type. On a response
    whose headers are not sent, after [type] is assigned a non-empty text [t]
    without semicolon, alone or followed by [;] and parameters, that node
    accepts as a header value (no control character), [type] reads back [t].
    Once the headers are sent the assignment changes nothing. *)
Theorem type_reads_back_without_parameters (t params : string) (r : ServerResponse) :
  beforeSemicolon t = t -> t <> EmptyString ->
  validHeaderValue t = true -> validHeaderValue params = true ->
  if headersSent r
  then set_type (t +:+ String ";"%char params) r = (Ok, r) /\ set_type t r = (Ok, r)
  else (exists r', set_type (t +:+ String ";"%char params) r = (Ok, r') /\
                   get_type r' = t) /\
       (exists r', set_type t r = (Ok, r') /\ get_type r' = t).
Proof.
  intros Ht Hne Hvt Hvp. unfold set_type, Response.set.
  destruct (headersSent r) eqn:H; [done|].
  assert (Hv : validHeaderValue (t +:+ String ";"%char params) = true).
  { unfold validHeaderValue in *. rewrite allUnits_app. simpl. by rewrite Hvt, Hvp. }
  unfold raw_setHeader. rewrite H, Hv, Hvt. simpl.
  split; eexists; (split; [reflexivity|]);
    unfold get_type, get, raw_getHeader; simpl; rewrite lookup_insert_eq.
  - destruct (decide _) as [E|_]; [by destruct t|]. by apply beforeSemicolon_stops.
  - by destruct (decide _).
Qed.

Lemma type_reads_back_without_parameters_witness :
  (exists r', set_type ("application/json" +:+ String ";"%char " charset=utf-8")
                freshRaw = (Ok, r') /\
              get_type r' = "application/json") /\
  (exists r', set_type "application/json" freshRaw = (Ok, r') /\
              get_type r' = "application/json").
Proof.
  apply (type_reads_back_without_parameters "application/json" " charset=utf-8" freshRaw);
    [reflexivity | discriminate | reflexivity | reflexivity].
Defined.

(** The default status 404 is a value of the wrapper only: on a wrapper as
    [reset] leaves it, [status] reads 404, but neither [send] nor the
    assignment of a null or undefined body writes the status code of the raw
    response, which goes out as it was; the assignment of any other body
    writes 200 to it. *)
Theorem default_status_is_not_written (w : KoaXResponse) (r : ServerResponse)
    (val : Body) :
  let w0 := Response.reset w in
  let wr := set_body val (w0, r) in
  get_status w0 = 404 /\
  statusCode (snd (send w0 r)) = statusCode r /\
  (if not_nullish val
   then get_status (fst wr) = 200 /\ statusCode (snd wr) = 200
   else get_status (fst wr) = 404 /\
        statusCode (snd (send (fst wr) (snd wr))) = statusCode r).
Proof.
  simpl. split; [done|]. split; [apply send_statusCode|].
  unfold set_body. simpl. destruct (not_nullish val) eqn:E; simpl; [done|].
  split; [done|]. apply send_statusCode.
Qed.

End ResponseSendProperties.

(** ** The request wrapper *)

Section RequestWrapperProperties.

Import Context Request.

Variable parseUrl : string -> Url.

(** The path is parsed once and then served from the cache: after a first
    read, an assignment to [ctx.req.url] on the raw request changes what [url]
    reads but not what [path] reads; an assignment through the wrapper's [url]
    setter, or a [reset], makes the next read parse the URL again. *)
Theorem path_is_cached_until_url_is_set (w : KoaXRequest) (r : IncomingMessage)
    (v : string) (req' : nat) :
  let w1 := snd (get_path parseUrl w r) in
  let p := fst (get_path parseUrl w r) in
  let parsePath u := ResponseHeaders.textOr (pathname (parseUrl u)) "/" in
  fst (get_path parseUrl w1 (raw_set_url v r)) = p /\
  get_url (raw_set_url v r) = ResponseHeaders.textOr (Some v) "/" /\
  fst (get_path parseUrl (fst (set_url v (w1, r))) (snd (set_url v (w1, r)))) =
    parsePath (ResponseHeaders.textOr (Some v) "/") /\
  fst (get_path parseUrl (request_reset req' w1) r) = parsePath (get_url r).
Proof.
  unfold get_path. destruct (_path w) as [p0|] eqn:E; simpl.
  - by rewrite E.
  - done.
Qed.

Lemma query_fold_lookup (m : gmap string QueryValue) (k : string) :
  map_fold assignQuery (∅ : gmap string string) m !! k =
    if decide (k = "__proto__") then None else queryText <$> (m !! k).
Proof.
  induction m as [|key value m Hnone Hfold IH] using map_first_key_ind.
  - rewrite map_fold_empty, !lookup_empty. by destruct (decide _).
  - rewrite map_fold_insert_first_key by done. unfold assignQuery at 1.
    destruct (decide (key = "__proto__")) as [->|Hkey].
    + rewrite IH. destruct (decide (k = "__proto__")) as [->|Hk]; [done|].
      by rewrite lookup_insert_ne.
    + destruct (decide (key = k)) as [->|Hne].
      * rewrite !lookup_insert_eq. by destruct (decide _).
      * by rewrite !lookup_insert_ne, IH.
Qed.

(** The query object of a wrapper whose cache is empty has the keys of the
    parsed query, but for [__proto__], which names no property of its own on
    a plain object: a parameter given once has its text, a repeated parameter
    the first of its texts, or the empty text when that one is empty. A
    wrapper whose cache is filled returns the cached object without looking
    at the URL. *)
Theorem query_keeps_first_value (w : KoaXRequest) (r : IncomingMessage) (k : string) :
  fst (get_query parseUrl w r) !! k =
    match _query w with
    | Some q => q !! k
    | None =>
        if decide (k = "__proto__") then None
        else
          match query (parseUrl (get_url r)) !! k with
          | Some (QString s) => Some s
          | Some (QArray l) => Some (ResponseHeaders.textOr (head l) "")
          | None => None
          end
    end.
Proof.
  unfold get_query. destruct (_query w) as [q|]; simpl; [done|].
  rewrite query_fold_lookup. destruct (decide _); [done|].
  by destruct (query (parseUrl (get_url r)) !! k) as [[s|l]|].
Qed.

End RequestWrapperProperties.

(** ** The helpers of the context *)

Section ContextApiProperties.

Import Application Conditions ContextApi.



(** The text of the body, with the quotes of a message escaped. *)
Example quoted_error_body :
  errorJson (String "034"%char "no") =
    "{" +:+ dquote +:+ "error" +:+ dquote +:+ ":" +:+ dquote +:+
    String "\"%char (String "034"%char "no") +:+ dquote +:+ "}".
Proof. reflexivity. Qed.

(** [ctx.assert] at the head of a middleware guards everything behind it:
    when the condition holds the chain runs as if the assertion were not
    there; when it fails, [executeMiddleware] fails with the error of
    [ctx.throw], and neither the rest of that middleware nor any middleware
    after it has run. *)
Theorem failed_assertion_stops_the_chain (condition : bool) (status : Z)
    (message : option string) (body : Code) (rest : list Middleware)
    (rq rs : list HookFunction) (eh el : list ErrorHookFunction)
    (lg : Logger.Logger) (timing : bool) (s : St) :
  executeMiddleware
    (mkApp (Seq (Act (ctx_assert condition status message)) body :: rest)
       rq rs eh lg timing el) s =
  if condition
  then executeMiddleware (mkApp (body :: rest) rq rs eh lg timing el) s
  else (Fail (throw status message), s).
Proof.
  unfold executeMiddleware. cbn [middleware length Nat.eqb].
  cbn [dispatch index invoked st app]. simpl.
  destruct condition; reflexivity.
Qed.

End ContextApiProperties.

(** ** Invariants of the context pool *)

Section PoolInvariantProperties.

Import Context MoreConditions.

Lemma not_inUse_false c : not_inUse c = false -> _inUse c = Some true.
Proof. unfold not_inUse. by destruct (_inUse c) as [[|]|]. Qed.

Lemma freeList_not_in_use p id c :
  freeListSound p -> heap p !! id = Some c -> not_inUse c = false -> id ∉ pool p.
Proof.
  intros [_ Hin] Hc Hu Hid. destruct (Hin id Hid) as (c' & Hc' & Hf).
  apply not_inUse_false in Hu. congruence.
Qed.

Lemma step_freeListSound p op :
  keepsFlag op -> freeListSound p -> freeListSound (step p op).
Proof.
  intros Hk Hs. pose proof Hs as [Hnd Hin].
  destruct op as [a rq rs|id|a rq rs|id f]; unfold freeListSound; simpl.
  - unfold acquire. destruct (pool p) as [|id rest] eqn:E; simpl.
    + split; [constructor|]. intros id Hid. by apply elem_of_nil in Hid.
    + apply NoDup_cons in Hnd as [Hni Hnd]. split; [done|].
      intros id' Hid'. destruct (Hin id') as (c & Hc & Hu); [by apply elem_of_cons; right|].
      exists c. split; [|done]. rewrite lookup_alter_ne; [done|]. by intros ->.
  - unfold release. destruct (heap p !! id) as [c|] eqn:Hc; [|done].
    destruct (not_inUse c) eqn:Hu; [done|].
    pose proof (freeList_not_in_use p id c Hs Hc Hu) as Hni.
    destruct (Z.of_nat (length (pool p)) <? maxSize p); simpl.
    + split; [by apply NoDup_cons|].
      intros id' Hid'. apply elem_of_cons in Hid' as [->|Hid'].
      * eexists. by rewrite lookup_insert_eq.
      * destruct (Hin id' Hid') as (c' & Hc' & Hf). exists c'. split; [|done].
        rewrite lookup_insert_ne; [done|]. by intros ->.
    + split; [done|].
      intros id' Hid'. destruct (Hin id' Hid') as (c' & Hc' & Hf). exists c'.
      split; [|done]. rewrite lookup_insert_ne; [done|]. by intros ->.
  - split; [done|].
    intros id' Hid'. destruct (Hin id' Hid') as (c' & Hc' & Hf). exists c'.
    split; [|done]. rewrite lookup_insert_ne; [done|].
    intros Heq. pose proof (is_fresh (dom (heap p))) as Hfresh.
    apply Hfresh. unfold freshId in Heq. rewrite Heq. apply elem_of_dom. by eexists.
  - split; [done|].
    intros id' Hid'. destruct (Hin id' Hid') as (c' & Hc' & Hf).
    destruct (decide (id = id')) as [->|Hne].
    + exists (f c'). rewrite lookup_alter_eq, Hc'. split; [done|].
      simpl in Hk. by rewrite Hk.
    + exists c'. by rewrite lookup_alter_ne.
Qed.

Lemma step_countsCreated p op made :
  keepsFlag op -> freeListSound p -> countsCreated p made ->
  exists made', countsCreated (step p op) made'.
Proof.
  intros Hk [Hnd Hin] (Hsize & Hsub & Hflag).
  pose proof (is_fresh (dom (heap p))) as Hfresh. fold (freshId (heap p)) in Hfresh.
  destruct op as [a rq rs|id|a rq rs|id f]; simpl.
  - unfold acquire. destruct (pool p) as [|id rest] eqn:E; simpl.
    + exists ({[freshId (heap p)]} ∪ made). split; [|split]; simpl.
      * rewrite size_union by set_solver. rewrite size_singleton. lia.
      * rewrite dom_insert_L. apply union_mono_l, Hsub.
      * intros id c Hc Hu. destruct (decide (id = freshId (heap p))) as [->|Hne];
          [by apply elem_of_union_l, elem_of_singleton|].
        rewrite lookup_insert_ne in Hc by done. apply elem_of_union_r. by eapply Hflag.
    + exists made. split; [|split]; simpl.
      * done.
      * by rewrite dom_alter_L.
      * intros id' c Hc Hu. destruct (decide (id = id')) as [->|Hne].
        -- destruct (Hin id') as (c0 & Hc0 & Hf); [apply list_elem_of_here|].
           apply (Hflag id' c0 Hc0). by rewrite Hf.
        -- rewrite lookup_alter_ne in Hc by done. by eapply Hflag.
  - unfold release. destruct (heap p !! id) as [c|] eqn:Hc; [|by exists made].
    destruct (not_inUse c) eqn:Hu; [by exists made|].
    apply not_inUse_false in Hu.
    assert (id ∈ made) as Hid by (apply (Hflag id c Hc); by rewrite Hu).
    exists made.
    destruct (Z.of_nat (length (pool p)) <? maxSize p); simpl;
      (split; [|split]; simpl;
       [ done
       | rewrite dom_insert_L; set_solver
       | intros id' c' Hc' Hu'; destruct (decide (id = id')) as [<-|Hne]; [done|];
         rewrite lookup_insert_ne in Hc' by done; by eapply Hflag ]).
  - exists made. split; [|split]; simpl.
    + done.
    + rewrite dom_insert_L. set_solver.
    + intros id' c' Hc' Hu'. destruct (decide (freshId (heap p) = id')) as [<-|Hne].
      * rewrite lookup_insert_eq in Hc'. by injection Hc' as <-.
      * rewrite lookup_insert_ne in Hc' by done. by eapply Hflag.
  - exists made. split; [|split]; simpl.
    + done.
    + by rewrite dom_alter_L.
    + intros id' c' Hc' Hu'. destruct (decide (id = id')) as [<-|Hne].
      * rewrite lookup_alter_eq in Hc'.
        destruct (heap p !! id) as [c0|] eqn:Hc0; [|done].
        simpl in Hc'. injection Hc' as <-. apply (Hflag id c0 Hc0).
        simpl in Hk. by rewrite <- Hk.
      * rewrite lookup_alter_ne in Hc' by done. by eapply Hflag.
Qed.

Lemma run_invariants ops p made :
  Forall keepsFlag ops -> freeListSound p -> countsCreated p made ->
  freeListSound (run ops p) /\ exists made', countsCreated (run ops p) made'.
Proof.
  intros Hk. revert p made. induction Hk as [|op ops Hop _ IH]; intros p made Hs Hc.
  - split; [done|by exists made].
  - destruct (step_countsCreated p op made Hop Hs Hc) as [made' Hc'].
    apply (IH (step p op) made'); [by apply step_freeListSound | done].
Qed.

Lemma newPool_invariants n : freeListSound (newPool n) /\ countsCreated (newPool n) ∅.
Proof.
  split; [split; [constructor | intros id Hid; by apply elem_of_nil in Hid]|].
  split; [done|]. split; [done|]. simpl. intros id c Hc. by rewrite lookup_empty in Hc.
Qed.

(** No context is in two hands. As long as user code leaves the pooling flag
    [_inUse] alone, whatever is acquired, released (any context, any number of
    times), allocated or assigned: the free list holds no context twice and
    only contexts that are not in use; the context [acquire] hands out is
    marked in use and is no longer in the free list; and the next [acquire]
    hands out another context. *)
Theorem acquired_context_is_held_once (n : Z) (ops : list PoolOp)
    (a rq rs a' rq' rs' : nat) :
  Forall keepsFlag ops ->
  let p := run ops (newPool n) in
  let id := fst (acquire a rq rs p) in
  let p1 := snd (acquire a rq rs p) in
  freeListSound p /\
  (id ∉ pool p1) /\
  (exists c, heap p1 !! id = Some c /\ _inUse c = Some true) /\
  fst (acquire a' rq' rs' p1) <> id.
Proof.
  intros Hk p id p1.
  destruct (newPool_invariants n) as [Hs0 Hc0].
  destruct (run_invariants ops (newPool n) ∅ Hk Hs0 Hc0) as [Hs _]. fold p in Hs.
  split; [exact Hs|]. destruct Hs as [Hnd Hin].
  subst id p1. destruct (acquire a rq rs p) as [id p1] eqn:Hacq. simpl.
  unfold acquire in Hacq.
  destruct (pool p) as [|id0 rest] eqn:E; injection Hacq as <- <-; simpl.
  - split; [apply not_elem_of_nil|]. split.
    + eexists. by rewrite lookup_insert_eq.
    + unfold acquire. simpl. unfold freshId at 1.
      intros Heq.
      match type of Heq with fresh ?X = _ => pose proof (is_fresh X) as Hfresh end.
      apply Hfresh. rewrite Heq, dom_insert_L. by apply elem_of_union_l, elem_of_singleton.
  - apply NoDup_cons in Hnd as [Hni Hnd].
    destruct (Hin id0) as (c & Hc & Hf); [apply list_elem_of_here|].
    split; [done|]. split.
    + eexists. by rewrite lookup_alter_eq, Hc.
    + unfold acquire. simpl. destruct rest as [|id2 rest]; simpl.
      * unfold freshId. intros Heq.
        match type of Heq with fresh ?X = _ => pose proof (is_fresh X) as Hfresh end.
        apply Hfresh. rewrite Heq, dom_alter_L. apply elem_of_dom. by eexists.
      * intros ->. apply Hni, list_elem_of_here.
Qed.

Lemma acquired_context_is_held_once_witness :
  let ops := [Acquire 0 0 0; Mutate 0 (set_state ∅); Release 0; Release 0] in
  let p := run ops (newPool 2) in
  let id := fst (acquire 0 1 1 p) in
  let p1 := snd (acquire 0 1 1 p) in
  freeListSound p /\
  (id ∉ pool p1) /\
  (exists c, heap p1 !! id = Some c /\ _inUse c = Some true) /\
  fst (acquire 0 2 2 p1) <> id.
Proof.
  apply (acquired_context_is_held_once 2
           [Acquire 0 0 0; Mutate 0 (set_state ∅); Release 0; Release 0] 0 1 1 0 2 2).
  repeat constructor.
Defined.

(** The pool counts what it creates. As long as user code leaves the pooling
    flag alone, the free list never holds more contexts than the [created]
    count of [getStats]: a context allocated with [new Context] outside the
    pool never enters it. *)
Theorem pool_size_at_most_created (n : Z) (ops : list PoolOp) :
  Forall keepsFlag ops ->
  let '(poolSize, made, _) := ContextApi.getPoolStats (run ops (newPool n)) in
  poolSize <= made.
Proof.
  intros Hk. unfold ContextApi.getPoolStats, getStats.
  destruct (newPool_invariants n) as [Hs0 Hc0].
  destruct (run_invariants ops (newPool n) ∅ Hk Hs0 Hc0)
    as [[Hnd Hin] (made & Hsize & Hsub & Hflag)].
  rewrite <- Hsize. apply inj_le.
  unfold size, set_size. simpl.
  apply submseteq_length, NoDup_submseteq; [done|].
  intros id Hid. apply elem_of_elements.
  destruct (Hin id Hid) as (c & Hc & Hf). apply (Hflag id c Hc). by rewrite Hf.
Qed.

Lemma pool_size_at_most_created_witness :
  let '(poolSize, made, _) :=
    ContextApi.getPoolStats
      (run [Acquire 0 0 0; NewContext 0 1 1; Release 1; Release 0] (newPool 2)) in
  poolSize <= made.
Proof.
  apply (pool_size_at_most_created 2
           [Acquire 0 0 0; NewContext 0 1 1; Release 1; Release 0]).
  repeat constructor.
Defined.

(** The hypothesis is needed: [_inUse] is a public field, and a context
    allocated outside the pool whose flag user code sets enters the free list
    on release, which then holds more contexts than the pool created. *)
Example tampered_flag_enters_the_pool :
  ContextApi.getPoolStats
    (run [NewContext 0 0 0; Mutate 0 (set_inUse true); Release 0] (newPool 2))
  = (1, 0, 2).
Proof. vm_compute. reflexivity. Qed.

End PoolInvariantProperties.

(** ** Dispatch over chains of any length *)

Section ChainProperties.

Import Application Conditions MoreConditions.

(** What a chain of onion layers around a last middleware does, from any
    [dispatch(i)] above the counter. *)
Lemma dispatch_onions (layers : list (Action * Action)) (last : list Middleware)
    (inner : Action) :
  (forall i d, index d < i ->
     fst (dispatch last i d) = fst (inner (st d)) /\
     st (snd (dispatch last i d)) = snd (inner (st d))) ->
  forall i d, index d < i ->
    fst (dispatch (onions layers ++ last) i d) = fst (onionActs layers inner (st d)) /\
    st (snd (dispatch (onions layers ++ last) i d)) = snd (onionActs layers inner (st d)).
Proof.
  intros Hlast. induction layers as [|[pre post] layers IH]; intros i d Hlt.
  - apply Hlast, Hlt.
  - cbn [onions map app fst snd dispatch index invoked st].
    destruct (i <=? index d) eqn:E; [apply Z.leb_le in E; lia|].
    cbn [Scenarios.onion runCode index invoked st onionActs]. unfold andThen.
    destruct (pre (st d)) as [[|e] s1]; [|done].
    fold (onions layers).
    match goal with |- context [dispatch ?c ?j ?d1] =>
      pose proof (IH j d1) as H; cbn [index st] in H;
      destruct (dispatch c j d1) as [o2 d2]
    end.
    destruct H as [Ho Hs]; [lia|].
    destruct (onionActs layers inner s1) as [o3 s3]. simpl in Ho, Hs. subst o3 s3.
    destruct o2 as [|e]; [|done].
    by destruct (post (st d2)) as [[|e] s4].
Qed.

(** The onion model at any depth. For a chain of any number of middleware
    that each run some code, await their continuation once and run some more
    code, followed by one that does not call its continuation,
    [executeMiddleware] runs the code before the continuation of every layer,
    outermost first, then the last middleware, then the code after the
    continuation of every layer, innermost first; each step runs only if none
    before it threw. Without a last middleware the innermost continuation
    resolves at once. *)
Theorem onion_order_at_any_depth (layers : list (Action * Action)) (c : Action)
    (rq rs : list HookFunction) (eh el : list ErrorHookFunction)
    (lg : Logger.Logger) (timing : bool) (s : St) :
  executeMiddleware (mkApp (onions layers ++ [Act c]) rq rs eh lg timing el) s
    = onionActs layers c s /\
  executeMiddleware (mkApp (onions layers) rq rs eh lg timing el) s
    = onionActs layers pass s.
Proof.
  split.
  - unfold executeMiddleware. cbn [middleware].
    destruct (length (onions layers ++ [Act c]) =? 0)%nat eqn:E.
    { apply Nat.eqb_eq in E. rewrite length_app in E. simpl in E. lia. }
    destruct (dispatch_onions layers [Act c] c) with (i := 0) (d := mkDisp (-1) [] s)
      as [Ho Hs].
    + intros i d Hlt. cbn [dispatch index invoked st].
      destruct (i <=? index d) eqn:F; [apply Z.leb_le in F; lia|].
      cbn [runCode st]. by destruct (c (st d)).
    + simpl. lia.
    + destruct (dispatch _ 0 _) as [o d]. simpl in Ho, Hs.
      destruct (onionActs layers c s). simpl in *. by subst.
  - unfold executeMiddleware. cbn [middleware].
    destruct (length (onions layers) =? 0)%nat eqn:E.
    { apply Nat.eqb_eq in E. by destruct layers. }
    destruct (dispatch_onions layers [] pass) with (i := 0) (d := mkDisp (-1) [] s)
      as [Ho Hs].
    + intros i d Hlt. cbn [dispatch index invoked st].
      by destruct (i <=? index d) eqn:F; [apply Z.leb_le in F; lia|].
    + simpl. lia.
    + rewrite app_nil_r in Ho, Hs.
      destruct (dispatch _ 0 _) as [o d]. simpl in Ho, Hs.
      destruct (onionActs layers pass s). simpl in *. by subst.
Qed.

Lemma runCode_ext (body : Code) (next next' : Disp -> Outcome * Disp) :
  (forall d, next d = next' d) ->
  forall d, runCode body next d = runCode body next' d.
Proof.
  intros Hext.
  induction body as [a| |p IHp q IHq|p IHp h IHh|c p IHp q IHq]; intros d; simpl.
  - done.
  - apply Hext.
  - rewrite IHp. destruct (runCode p next' d) as [[|e] d1]; [apply IHq|done].
  - rewrite IHp. destruct (runCode p next' d) as [[|e] d1]; [done|apply IHh].
  - destruct (c (st d)); [apply IHp|apply IHq].
Qed.

Lemma runCode_nextFree (body : Code) (next next' : Disp -> Outcome * Disp) :
  nextFree body -> forall d, runCode body next d = runCode body next' d.
Proof.
  induction body as [a| |p IHp q IHq|p IHp h IHh|c p IHp q IHq]; intros Hnf d;
    simpl in *.
  - done.
  - done.
  - destruct Hnf as [Hp Hq]. rewrite (IHp Hp).
    destruct (runCode p next' d) as [[|e] d1]; [apply (IHq Hq)|done].
  - destruct Hnf as [Hp Hh]. rewrite (IHp Hp).
    destruct (runCode p next' d) as [[|e] d1]; [done|apply (IHh e (Hh e))].
  - destruct Hnf as [Hp Hq]. destruct (c (st d)); [apply (IHp Hp)|apply (IHq Hq)].
Qed.

Lemma dispatch_cut (before after : list Middleware) (m : Middleware) :
  nextFree m ->
  forall i d, dispatch (before ++ m :: after) i d = dispatch (before ++ [m]) i d.
Proof.
  intros Hnf. induction before as [|fn before IH]; intros i d.
  - cbn [app dispatch]. destruct (i <=? _); [done|]. by apply runCode_nextFree.
  - cbn [app dispatch]. destruct (i <=? _); [done|]. apply runCode_ext. intros d'. apply IH.
Qed.

(** A middleware that never calls its continuation ends the chain: whatever
    is registered after it never runs, so the chain behaves as if it stopped
    there. *)
Theorem middleware_after_a_terminal_one_never_runs
    (before after : list Middleware) (m : Middleware)
    (rq rs : list HookFunction) (eh el : list ErrorHookFunction)
    (lg : Logger.Logger) (timing : bool) (s : St) :
  nextFree m ->
  executeMiddleware (mkApp (before ++ m :: after) rq rs eh lg timing el) s =
  executeMiddleware (mkApp (before ++ [m]) rq rs eh lg timing el) s.
Proof.
  intros Hnf. unfold executeMiddleware. cbn [middleware].
  rewrite (dispatch_cut before after m Hnf).
  rewrite !length_app. simpl.
  by replace (length before + S (length after))%nat with (S (length before + length after))
    by lia; replace (length before + 1)%nat with (S (length before)) by lia.
Qed.

Lemma middleware_after_a_terminal_one_never_runs_witness :
  executeMiddleware
    (mkApp ([Scenarios.onion (Scenarios.tell "A-before") (Scenarios.tell "A-after")] ++
            Act (Scenarios.tell "B") :: [Act (Scenarios.raise Scenarios.boom)])
       [] [] [] Scenarios.consoleLogger false []) Scenarios.freshSt =
  executeMiddleware
    (mkApp ([Scenarios.onion (Scenarios.tell "A-before") (Scenarios.tell "A-after")] ++
            [Act (Scenarios.tell "B")])
       [] [] [] Scenarios.consoleLogger false []) Scenarios.freshSt.
Proof.
  apply (middleware_after_a_terminal_one_never_runs
           [Scenarios.onion (Scenarios.tell "A-before") (Scenarios.tell "A-after")]
           [Act (Scenarios.raise Scenarios.boom)] (Act (Scenarios.tell "B"))).
  exact I.
Defined.

End ChainProperties.

(** ** Registration of hooks *)

Section RegistrationProperties.

Import Application.

Lemma runHooks_app (pre post : list HookFunction) (s : St) :
  runHooks (pre ++ post) s = (runHooks pre >> runHooks post) s.
Proof.
  revert s. induction pre as [|h pre IH]; intros s; simpl.
  - reflexivity.
  - unfold andThen in *. destruct (h s) as [[|e] s1]; [apply IH|reflexivity].
Qed.

Lemma andThen_pass (a : Action) (s : St) : (a >> pass) s = a s.
Proof. unfold andThen, pass. by destruct (a s) as [[|e] s1]. Qed.

(** Hooks run in registration order. A hook registered with [onRequest],
    [onResponse] or [onError] runs after all hooks of its kind registered
    before it, and only if none of them threw; registering a hook of one kind
    leaves the hooks of the other kinds and the middleware as they were. *)
Theorem hooks_run_in_registration_order (A : KoaXApplication) (fn : HookFunction)
    (efn : ErrorHookFunction) (err : Thrown) (s : St) :
  executeRequestHooks (onRequest fn A) s = (executeRequestHooks A >> fn) s /\
  executeResponseHooks (onResponse fn A) s = (executeResponseHooks A >> fn) s /\
  runErrorHooks (errorHooks (onError efn A)) err s =
    (runErrorHooks (errorHooks A) err >> efn err) s /\
  executeResponseHooks (onRequest fn A) s = executeResponseHooks A s /\
  executeRequestHooks (onResponse fn A) s = executeRequestHooks A s /\
  executeMiddleware (onRequest fn (onResponse fn (onError efn A))) s =
    executeMiddleware A s.
Proof.
  unfold executeRequestHooks, executeResponseHooks. simpl.
  rewrite !runHooks_app, runErrorHooks_app.
  split; [|split; [|split]]; try done.
  - unfold andThen. destruct (runHooks (requestHooks A) s) as [[|e] s1]; [|done].
    simpl. apply andThen_pass.
  - unfold andThen. destruct (runHooks (responseHooks A) s) as [[|e] s1]; [|done].
    simpl. apply andThen_pass.
  - unfold andThen. destruct (runErrorHooks (errorHooks A) err s) as [[|e] s1]; [|done].
    simpl. apply andThen_pass.
Qed.

End RegistrationProperties.
